(** * simplechain: blocks, the proof-of-work search, the chain and its anchors

    A shallow embedding of the [Block] and [Chain] classes of the
    [Blockchain/simplechain] module, with the properties of the ledger
    engine stated over it.

    Conventions of the embedding.
    - JavaScript numbers that the module handles (indices, nonces,
      timestamps in milliseconds) are integers far below 2^53, where the
      arithmetic of doubles is exact; they are modelled by [Z].
    - A JavaScript object literal is an insertion-ordered property list.
    - Block instances live in a heap of references, because [add] seals the
      caller's block in place and then makes the head refer to that very
      object.
    - [node-object-hash] is an external dependency: the hasher is a
      variable of the development.  [Math.random] and [new Date()] are
      inputs of the operations that consult them.
    - The two sqlite tables are lists of rows in insertion order, with the
      primary key on [i] and the unique index on [hash] that the
      [CREATE] statements of [initialize] declare. *)

From Stdlib Require Import Ascii.
From Stdlib.Strings Require Byte.
From stdpp Require Import gmap strings list pretty.

Open Scope Z_scope.

#[local] Set Warnings "-register-all".

(** ** JavaScript values *)

(** The values a payload can be made of (what [JSON.stringify] can
    serialise), which are also the values of the fields of the hashed
    record. *)
Inductive val : Type :=
  | VNull
  | VBool (b : bool)
  | VNum (n : Z)
  | VStr (s : string)
  | VArr (xs : list val)
  | VObj (kvs : list (string * val)).

(** An object: its own enumerable properties in insertion order. *)
Definition obj : Type := list (string * val).

(** [o[k]]: [None] stands for [undefined]. *)
Fixpoint obj_get (k : string) (o : obj) : option val :=
  match o with
  | [] => None
  | (k', v) :: o' => if String.eqb k' k then Some v else obj_get k o'
  end.

(** [o[k] = v]: an existing property keeps its place, a new one goes last. *)
Fixpoint obj_set (k : string) (v : val) (o : obj) : obj :=
  match o with
  | [] => [(k, v)]
  | (k', v') :: o' =>
      if String.eqb k' k then (k', v) :: o' else (k', v') :: obj_set k v o'
  end.

(** [delete o[k]]. *)
Fixpoint obj_delete (k : string) (o : obj) : obj :=
  match o with
  | [] => []
  | (k', v') :: o' =>
      if String.eqb k' k then obj_delete k o' else (k', v') :: obj_delete k o'
  end.

(** ** [JSON.stringify] *)

Definition dquote : ascii := ascii_of_nat 34.
Definition backslash : ascii := ascii_of_nat 92.

Definition hex_digit (n : nat) : ascii :=
  nth n (String.list_ascii_of_string "0123456789abcdef") "0"%char.

(** The escape of one character inside a JSON string literal. *)
Definition escape_char (c : ascii) : string :=
  let n := nat_of_ascii c in
  if (n =? 34)%nat then String backslash (String dquote "")
  else if (n =? 92)%nat then String backslash (String backslash "")
  else if (n =? 8)%nat then "\b"
  else if (n =? 9)%nat then "\t"
  else if (n =? 10)%nat then "\n"
  else if (n =? 12)%nat then "\f"
  else if (n =? 13)%nat then "\r"
  else if (n <? 32)%nat then
    "\u00" +:+ String (hex_digit (n / 16)) (String (hex_digit (n mod 16)) "")
  else String c "".

Fixpoint escape (s : string) : string :=
  match s with
  | EmptyString => EmptyString
  | String c s' => escape_char c +:+ escape s'
  end.

Definition quote (s : string) : string :=
  String dquote (escape s +:+ String dquote "").

Fixpoint join (sep : string) (l : list string) : string :=
  match l with
  | [] => ""
  | [x] => x
  | x :: l' => x +:+ sep +:+ join sep l'
  end.

Fixpoint JSON_stringify (v : val) : string :=
  match v with
  | VNull => "null"
  | VBool true => "true"
  | VBool false => "false"
  | VNum n => pretty n
  | VStr s => quote s
  | VArr xs => "[" +:+ join "," (List.map JSON_stringify xs) +:+ "]"
  | VObj kvs =>
      "{" +:+
      join "," (List.map (fun kv => quote (fst kv) +:+ ":" +:+ JSON_stringify (snd kv)) kvs)
      +:+ "}"
  end.

(** ** Results of operations that can throw or loop *)

Inductive outcome (A : Type) : Type :=
  | Returns (a : A)   (* normal completion *)
  | Throws            (* a JavaScript exception (TypeError) *)
  | Diverges          (* the loop budget of the model ran out *)
  | Unmodelled.       (* a state no operation of the module produces *)
Arguments Returns {A} a.
Arguments Throws {A}.
Arguments Diverges {A}.
Arguments Unmodelled {A}.

(** The value returned, or [d] when there is none. *)
Definition returned {A : Type} (d : A) (o : outcome A) : A :=
  match o with
  | Returns a => a
  | _ => d
  end.

(** ** Blocks *)

(** What [previousHash] holds: the number [-1] of the genesis block or the
    digest string of the predecessor. *)
Inductive link : Type :=
  | LNum (n : Z)
  | LStr (s : string).

Definition val_of_link (p : link) : val :=
  match p with
  | LNum n => VNum n
  | LStr s => VStr s
  end.

(** [h !== p] negated, for a digest string [h]: strict equality holds only
    with the same string. *)
Definition link_is (h : string) (p : link) : bool :=
  match p with
  | LStr s => String.eqb h s
  | LNum _ => false
  end.

(** The fields [build] assigns. *)
Record Sealed : Type := mkSealed {
  object : obj;
  index : Z;
  previousHash : link;
  nonce : Z
}.

(** A block made by [new Block(data)]: [data] and [timestamp] from the
    constructor, the rest [undefined] ([seal = None]) until [build] runs.
    The two-argument form of the constructor has no caller in the
    repository and is left out. *)
Record Block : Type := mkBlock {
  data : val;
  timestamp : Z;
  seal : option Sealed
}.

(** [new Block(data)] at time [now]. *)
Definition Block_new (d : val) (now : Z) : Block :=
  {| data := d; timestamp := now; seal := None |}.

(** [this.object], as [Object.assign({}, this.object)] sees it:
    an undefined source contributes no property. *)
Definition object_of (b : Block) : obj :=
  match seal b with
  | Some s => object s
  | None => []
  end.

(** The object literal of [build]: the five content fields. *)
Definition content_fields (index timestamp : Z) (previousHash : link)
    (data : val) (nonce : Z) : obj :=
  [ ("index", VNum index);
    ("timestamp", VNum timestamp);
    ("previousHash", val_of_link previousHash);
    ("data", data);
    ("nonce", VNum nonce) ].

Section Hasher.

(** [new ObjectHash().hash]. *)
Variable ObjectHash_hash : val -> string.

(** [hash ()]. *)
Definition hash (b : Block) : string :=
  let tmpObject := object_of b in
  let tmpObject := obj_delete "hash" tmpObject in
  ObjectHash_hash (VObj tmpObject).

(** The block with its sealed fields replaced. *)
Definition with_seal (b : Block) (s : Sealed) : Block :=
  {| data := data b; timestamp := timestamp b; seal := Some s |}.

(** [this.object[k] = v] on a sealed block. *)
Definition set_prop (k : string) (v : val) (s : Sealed) : Sealed :=
  mkSealed (obj_set k v (object s)) (index s) (previousHash s) (nonce s).

(** The fields after [build (index, previousHash, nonce)]: the record of
    the five content fields, then its digest under the key [hash]. *)
Definition build_seal (b : Block) (index : Z) (previousHash : link) (nonce : Z) : Sealed :=
  let s := mkSealed (content_fields index (timestamp b) previousHash (data b) nonce)
                    index previousHash nonce in
  set_prop "hash" (VStr (hash (with_seal b s))) s.

(** [build (index, previousHash, nonce)]. *)
Definition build (b : Block) (index : Z) (previousHash : link) (nonce : Z) : Block :=
  with_seal b (build_seal b index previousHash nonce).

(** [this.object.hash !== h] negated. *)
Definition stored_hash_is (o : obj) (h : string) : bool :=
  match obj_get "hash" o with
  | Some (VStr s) => String.eqb s h
  | _ => false
  end.

(** [isValid (previousBlock)].  On an unsealed block the first comparison
    already fails: [undefined + 1] is [NaN], and no number is strictly equal
    to [undefined]. *)
Definition isValid (this previousBlock : Block) : bool :=
  match seal previousBlock, seal this with
  | Some p, Some t =>
      if negb (index p + 1 =? index t) then false
      else if negb (link_is (hash previousBlock) (previousHash t)) then false
      else if negb (stored_hash_is (object t) (hash this)) then false
      else true
  | _, _ => false
  end.

(** ** The two tables *)

(** A row of [chain (i INTEGER PRIMARY KEY ASC, hash VARCHAR,
    previousHash VARCHAR, nonce INTEGER, timestamp INTEGER, data VARCHAR)]. *)
Record ChainRow : Type := mkChainRow {
  row_i : Z;
  row_hash : string;
  row_previousHash : string;
  row_nonce : Z;
  row_timestamp : Z;
  row_data : string
}.

(** A row of [anchor (i INTEGER PRIMARY KEY ASC, hash VARCHAR,
    previousHash VARCHAR)]. *)
Record AnchorRow : Type := mkAnchorRow {
  anchor_i : Z;
  anchor_hash : string;
  anchor_previousHash : string
}.

(** What a [VARCHAR] column keeps of a bound [previousHash]: a string as it
    is, the number [-1] as its decimal text. *)
Definition sql_text (p : link) : string :=
  match p with
  | LNum n => pretty n
  | LStr s => s
  end.

(** [INSERT INTO chain VALUES (...)]: refused when the primary key [i] or
    the unique [hash] is already present. *)
Definition chain_insert (r : ChainRow) (t : list ChainRow) : option (list ChainRow) :=
  if existsb (fun r' => (row_i r' =? row_i r) || String.eqb (row_hash r') (row_hash r)) t
  then None
  else Some (t ++ [r]).

(** [INSERT INTO anchor VALUES (...)], with the same two constraints. *)
Definition anchor_insert (r : AnchorRow) (t : list AnchorRow) : option (list AnchorRow) :=
  if existsb (fun r' => (anchor_i r' =? anchor_i r)
                        || String.eqb (anchor_hash r') (anchor_hash r)) t
  then None
  else Some (t ++ [r]).

(** [ORDER BY i DESC LIMIT 1]: the row of greatest [i], if any. *)
Definition top_by {R : Type} (key : R -> Z) (t : list R) : option R :=
  fold_left (fun acc r =>
               match acc with
               | None => Some r
               | Some m => if key m <? key r then Some r else Some m
               end) t None.

(** [SELECT hash FROM chain WHERE i > lo AND i <= hi ORDER BY i ASC]. *)
Fixpoint insert_by_i (r : ChainRow) (l : list ChainRow) : list ChainRow :=
  match l with
  | [] => [r]
  | r' :: l' => if row_i r <=? row_i r' then r :: l else r' :: insert_by_i r l'
  end.

Definition order_by_i (t : list ChainRow) : list ChainRow :=
  fold_right insert_by_i [] t.

Definition select_range (lo hi : Z) (t : list ChainRow) : list ChainRow :=
  order_by_i (List.filter (fun r => (lo <? row_i r) && (row_i r <=? hi)) t).

(** The rows of that query as JavaScript sees them: [{ hash: ... }]. *)
Definition hash_rows (rows : list ChainRow) : val :=
  VArr (List.map (fun r => VObj [("hash", VStr (row_hash r))]) rows).

(** ** The chain *)

Definition loc : Type := positive.

(** A [Chain] whose two databases are open: the tables are the contents of
    [./name.db] and [./name.anchor.db]; [currentBlock] is a reference into
    the heap of blocks, [None] while it is [undefined]. *)
Record Chain : Type := mkChain {
  name : string;
  powHashPrefix : option string;
  maxRandomNonce : Z;
  _chain : list ChainRow;
  _anchor : list AnchorRow;
  currentBlock : option loc
}.

(** The prefix of a chain made without a second argument. *)
Definition default_powHashPrefix : option string := Some "dab".

(** [new Chain(name, powHashPrefix)] over the given contents of its files. *)
Definition Chain_new (name : string) (powHashPrefix : option string)
    (chain_db : list ChainRow) (anchor_db : list AnchorRow) : Chain :=
  {| name := name; powHashPrefix := powHashPrefix; maxRandomNonce := 876348467;
     _chain := chain_db; _anchor := anchor_db; currentBlock := None |}.

Definition set_currentBlock (c : Chain) (l : loc) : Chain :=
  {| name := name c; powHashPrefix := powHashPrefix c;
     maxRandomNonce := maxRandomNonce c;
     _chain := _chain c; _anchor := _anchor c; currentBlock := Some l |}.

Definition set_chain (c : Chain) (t : list ChainRow) : Chain :=
  {| name := name c; powHashPrefix := powHashPrefix c;
     maxRandomNonce := maxRandomNonce c;
     _chain := t; _anchor := _anchor c; currentBlock := currentBlock c |}.

Definition set_anchor (c : Chain) (t : list AnchorRow) : Chain :=
  {| name := name c; powHashPrefix := powHashPrefix c;
     maxRandomNonce := maxRandomNonce c;
     _chain := _chain c; _anchor := t; currentBlock := currentBlock c |}.

(** [s.slice(0, n)]. *)
Definition slice0 (n : nat) (s : string) : string := String.substring 0 n s.

(** The loop of [_proofOfWork] on the block it mutates.  [block.object.hash]
    is a string once [build] has run; on an unsealed block, or with a stored
    hash that has no [slice], the property access throws; an array has a
    [slice], whose result is not strictly equal to a string. *)
Fixpoint pow_loop (prefix : string) (fuel : nat) (block : Block) : outcome Block :=
  match fuel with
  | O => Diverges
  | S fuel' =>
      match seal block with
      | None => Throws
      | Some s =>
          let retry :=
            pow_loop prefix fuel'
              (build block (index s) (previousHash s) (nonce s + 1)) in
          match obj_get "hash" (object s) with
          | Some (VStr h) =>
              if String.eqb (slice0 (String.length prefix) h) prefix
              then Returns block
              else retry
          | Some (VArr _) => retry
          | _ => Throws
          end
      end
  end.

(** [_proofOfWork (block)]: the block is mutated in place, so the result is
    the heap in which the reference [block] holds the block found. *)
Definition _proofOfWork (c : Chain) (fuel : nat) (block : loc)
    (σ : gmap loc Block) : outcome (gmap loc Block) :=
  match powHashPrefix c with
  | None => Returns σ
  | Some prefix =>
      match σ !! block with
      | None => Unmodelled
      | Some b =>
          match pow_loop prefix fuel b with
          | Returns b' => Returns (<[block := b']> σ)
          | Throws => Throws
          | Diverges => Diverges
          | Unmodelled => Unmodelled
          end
      end
  end.

(** The row that [_addBlockToChain] binds to its [INSERT]. *)
Definition row_of_block (b : Block) (s : Sealed) : ChainRow :=
  {| row_i := index s;
     row_hash := hash b;
     row_previousHash := sql_text (previousHash s);
     row_nonce := nonce s;
     row_timestamp := timestamp b;
     row_data := JSON_stringify (data b) |}.

(** [_addBlockToChain (block)]: [true] after the insert, [false] when the
    insert throws.  Every caller passes a sealed block. *)
Definition _addBlockToChain (c : Chain) (b : Block) : outcome (Chain * bool) :=
  match seal b with
  | None => Unmodelled
  | Some s =>
      match chain_insert (row_of_block b s) (_chain c) with
      | Some t => Returns (set_chain c t, true)
      | None => Returns (c, false)
      end
  end.

(** [add (block)]: [randomNonce] is the draw of [Math.random], [fuel] bounds
    the proof-of-work loop.  The result is the digest returned, or [None] for
    [false]. *)
Definition add (c : Chain) (randomNonce : Z) (fuel : nat) (block : loc)
    (σ : gmap loc Block) : outcome (Chain * gmap loc Block * option string) :=
  match currentBlock c with
  | None => Throws
  | Some head =>
      match σ !! head, σ !! block with
      | Some hb, Some b =>
          match seal hb with
          | None => Unmodelled
          | Some hs =>
              let σ1 := <[block := build b (index hs + 1) (LStr (hash hb)) randomNonce]> σ in
              match _proofOfWork c fuel block σ1 with
              | Returns σ2 =>
                  match σ2 !! block, σ2 !! head with
                  | Some b2, Some hb2 =>
                      if isValid b2 hb2 then
                        match _addBlockToChain c b2 with
                        | Returns (c', true) =>
                            match obj_get "hash" (object_of b2) with
                            | Some (VStr h) =>
                                Returns (set_currentBlock c' block, σ2, Some h)
                            | _ => Unmodelled
                            end
                        | Returns (c', false) => Returns (c', σ2, None)
                        | Throws => Throws
                        | Diverges => Diverges
                        | Unmodelled => Unmodelled
                        end
                      else Returns (c, σ2, None)
                  | _, _ => Unmodelled
                  end
              | Throws => Throws
              | Diverges => Diverges
              | Unmodelled => Unmodelled
              end
          end
      | _, _ => Unmodelled
      end
  end.

(** [initialize (seed)]: [now] is the clock read by [new Block]; the block
    it creates is allocated at a fresh reference. *)
Definition initialize (c : Chain) (seed : bool) (now : Z)
    (σ : gmap loc Block) : Chain * gmap loc Block * bool :=
  if seed then
    let l := fresh (dom σ) in
    match top_by row_i (_chain c) with
    | None =>
        let g0 := Block_new (VStr "GENBLOCK") now in
        let s := build_seal g0 0 (LNum (-1)) 0 in
        let g := with_seal g0 (set_prop "hash" (VStr (hash (with_seal g0 s))) s) in
        let c1 := set_currentBlock c l in
        match _addBlockToChain c1 g with
        | Returns (c2, _) => (c2, <[l := g]> σ, true)
        | _ => (c1, <[l := g]> σ, true)
        end
    | Some finalRow =>
        let b0 := Block_new (VStr (row_data finalRow)) now in
        let s := build_seal b0 (row_i finalRow) (LStr (row_previousHash finalRow))
                            (row_nonce finalRow) in
        let b1 := {| data := data b0; timestamp := row_timestamp finalRow;
                     seal := Some (set_prop "timestamp" (VNum (row_timestamp finalRow)) s) |} in
        let b2 := with_seal b1 (set_prop "hash" (VStr (hash b1))
                                  (set_prop "timestamp" (VNum (row_timestamp finalRow)) s)) in
        (set_currentBlock c l, <[l := b2]> σ, true)
    end
  else (c, σ, true).

(** [anchor ()]. *)
Definition anchor (c : Chain) (σ : gmap loc Block) : outcome (Chain * bool) :=
  let anchorRows := top_by anchor_i (_anchor c) in
  let previousAnchor := match anchorRows with Some r => anchor_i r | None => 0 end in
  let previoushash := match anchorRows with
                      | Some r => LStr (anchor_hash r)
                      | None => LNum (-1)
                      end in
  match currentBlock c with
  | None => Throws
  | Some head =>
      match σ !! head with
      | Some hb =>
          match seal hb with
          | Some hs =>
              let hashRows := select_range previousAnchor (index hs) (_chain c) in
              if (0 <? length hashRows)%nat then
                let anchorHash := ObjectHash_hash (hash_rows hashRows) in
                match anchor_insert
                        (mkAnchorRow (index hs) anchorHash (sql_text previoushash))
                        (_anchor c) with
                | Some t => Returns (set_anchor c t, true)
                | None => Returns (c, false)
                end
              else Returns (c, false)
          | None => Unmodelled
          end
      | None => Unmodelled
      end
  end.

(** [get length ()]. *)
Definition length_of (c : Chain) (σ : gmap loc Block) : option Z :=
  match currentBlock c with
  | Some head =>
      match σ !! head with
      | Some hb => match seal hb with Some hs => Some (index hs + 1) | None => None end
      | None => None
      end
  | None => None
  end.

End Hasher.

(** ** A hasher to run the operations with

    Two hexadecimal digits of a rolling checksum of the JSON text of the
    value, followed by that text. *)
Fixpoint roll (h : N) (s : string) : N :=
  match s with
  | EmptyString => h
  | String c s' => roll ((33 * h + N_of_ascii c) mod 256)%N s'
  end.

Definition demo_hash (v : val) : string :=
  let t := JSON_stringify v in
  let n := N.to_nat (roll 5 t) in
  String (hex_digit (n / 16)) (String (hex_digit (n mod 16)) t).


(** A hasher under which all digests collide. *)
Definition const_hash (v : val) : string := "00".

(** A ledger freshly seeded at time [1000], and a candidate block with
    payload ["pay"] created at time [2000]. *)
Definition demo_init (H : val -> string) (prefix : option string)
  : Chain * gmap loc Block :=
  let '(c, σ, _) := initialize H (Chain_new "demo" prefix [] []) true 1000 ∅ in
  (c, σ).

Definition demo_candidate : loc := 5%positive.

Definition demo_heap (H : val -> string) (prefix : option string) : gmap loc Block :=
  <[demo_candidate := Block_new (VStr "pay") 2000]> (snd (demo_init H prefix)).

(** The candidate added to the seeded ledger, the draw of the nonce being 7
    and the budget of the search 30 attempts. *)
Definition demo_add (H : val -> string) (prefix : option string)
  : outcome (Chain * gmap loc Block * option string) :=
  add H (fst (demo_init H prefix)) 7 30 demo_candidate (demo_heap H prefix).

Definition demo_added (H : val -> string) (prefix : option string)
  : Chain * gmap loc Block * option string :=
  returned (fst (demo_init H prefix), demo_heap H prefix, None) (demo_add H prefix).

(** The ledger after that [add], then anchored; then a second block, with
    payload ["more"], added and the ledger anchored again. *)
Definition demo_anchored (H : val -> string) : Chain * gmap loc Block :=
  let '(c, σ, _) := demo_added H None in
  (fst (returned (c, false) (anchor H c σ)), σ).

Definition demo_second : loc := 6%positive.

Definition demo_added_again (H : val -> string) : Chain * gmap loc Block :=
  let '(c, σ) := demo_anchored H in
  let σ := <[demo_second := Block_new (VStr "more") 4000]> σ in
  fst (returned (c, σ, None) (add H c 9 30 demo_second σ)).

(** ** Vocabulary of the statements *)

(** The stored digest of the block is a string that starts with [prefix]. *)
Definition digest_starts_with (prefix : string) (b : Block) : bool :=
  match obj_get "hash" (object_of b) with
  | Some (VStr h) => String.prefix prefix h
  | _ => false
  end.

(** One failed attempt of the search: the nonce goes up by one and the block
    is sealed again with its own index and previousHash. *)
Definition next_attempt (H : val -> string) (b : Block) : Block :=
  match seal b with
  | Some s => build H b (index s) (previousHash s) (nonce s + 1)
  | None => b
  end.

(** The block after [k] failed attempts. *)
Definition attempts (H : val -> string) (k : nat) (b : Block) : Block :=
  Nat.iter k (next_attempt H) b.
Arguments attempts : simpl never.

(** The nonce of a block, [0] standing for [undefined]. *)
Definition nonce_of (b : Block) : Z :=
  match seal b with Some s => nonce s | None => 0 end.

(** What [anchor] reads from the latest anchor: its index, or [0], and the
    stored form of its digest, or of the number [-1]. *)
Definition previous_anchor_index (c : Chain) : Z :=
  match top_by anchor_i (_anchor c) with
  | Some r => anchor_i r
  | None => 0
  end.

Definition previous_anchor_hash (c : Chain) : string :=
  match top_by anchor_i (_anchor c) with
  | Some r => anchor_hash r
  | None => sql_text (LNum (-1))
  end.

(** The row that [anchor] tries to insert when the head has index [i]. *)
Definition new_anchor (H : val -> string) (c : Chain) (i : Z) : AnchorRow :=
  mkAnchorRow i
    (H (hash_rows (select_range (previous_anchor_index c) i (_chain c))))
    (previous_anchor_hash c).

(** ** Ledgers grown from a fresh database *)

(** [r] is linked to the row [prev] before it: next index, and the digest of
    [prev] as its previousHash. *)
Definition links_to (prev r : ChainRow) : bool :=
  (row_i r =? row_i prev + 1) && String.eqb (row_previousHash r) (row_hash prev).

Fixpoint linked_from (prev : ChainRow) (t : list ChainRow) : bool :=
  match t with
  | [] => true
  | r :: t' => links_to prev r && linked_from r t'
  end.

(** The row of the genesis block: index 0, the text of [-1], nonce 0 and the
    JSON text of the payload ["GENBLOCK"]. *)
Definition is_genesis_row (g : ChainRow) : bool :=
  (row_i g =? 0) && String.eqb (row_previousHash g) "-1" && (row_nonce g =? 0)
  && String.eqb (row_data g) (JSON_stringify (VStr "GENBLOCK")).

(** A block table that is a hash chain from the genesis row on. *)
Definition chain_table_ok (t : list ChainRow) : bool :=
  match t with
  | [] => false
  | g :: t' => is_genesis_row g && linked_from g t'
  end.

(** An anchor table that is a hash chain with strictly increasing indices,
    starting from the index [prev_i] and the text [prev_hash]. *)
Fixpoint anchors_from (prev_i : Z) (prev_hash : string) (t : list AnchorRow) : bool :=
  match t with
  | [] => true
  | a :: t' =>
      (prev_i <? anchor_i a) && String.eqb (anchor_previousHash a) prev_hash
      && anchors_from (anchor_i a) (anchor_hash a) t'
  end.

Definition anchor_table_ok (t : list AnchorRow) : bool :=
  anchors_from 0 "-1" t.

(** The head is a sealed block that stands for the last row of the table. *)
Definition head_is_last_row (H : val -> string) (c : Chain) (σ : gmap loc Block) : Prop :=
  exists head hb hs r,
    currentBlock c = Some head /\ σ !! head = Some hb /\ seal hb = Some hs
    /\ last (_chain c) = Some r
    /\ row_i r = index hs /\ row_hash r = hash H hb.

(** The index of the head block. *)
Definition head_index (c : Chain) (σ : gmap loc Block) : option Z :=
  match currentBlock c with
  | Some head =>
      match σ !! head with
      | Some hb => match seal hb with Some hs => Some (index hs) | None => None end
      | None => None
      end
  | None => None
  end.

(** The states of a ledger that was seeded on an empty database and then
    used through [add] and [anchor], its callers creating or changing any
    block but the head, never passing the head itself to [add], and never
    calling [initialize] again. *)
Inductive reachable (H : val -> string) : Chain -> gmap loc Block -> Prop :=
  | reach_seed name prefix now σ0 c σ :
      initialize H (Chain_new name prefix [] []) true now σ0 = (c, σ, true) ->
      reachable H c σ
  | reach_heap c σ σ' head :
      reachable H c σ ->
      currentBlock c = Some head -> σ' !! head = σ !! head ->
      reachable H c σ'
  | reach_add c σ rnd fuel l c' σ' r :
      reachable H c σ ->
      currentBlock c <> Some l ->
      add H c rnd fuel l σ = Returns (c', σ', r) ->
      reachable H c' σ'
  | reach_anchor c σ c' r :
      reachable H c σ ->
      anchor H c σ = Returns (c', r) ->
      reachable H c' σ.

(** What holds of every such state: both tables are hash chains, the head
    stands for the last block row, and every anchor has an index between 1
    and the head's. *)
Definition ledger_inv (H : val -> string) (c : Chain) (σ : gmap loc Block) : Prop :=
  chain_table_ok (_chain c) = true
  /\ head_is_last_row H c σ
  /\ anchor_table_ok (_anchor c) = true
  /\ exists hi, head_index c σ = Some hi
               /\ forall a, In a (_anchor c) -> 1 <= anchor_i a <= hi.

(** * Network/P2P: the incoming buffer of a peer

    A [Buffer] is a list of bytes of fixed length; offsets and cursors are
    natural numbers in binary, as they can be as large as a 32-bit length
    field makes them.  The socket, the event emitter and [crypto] are
    outside: a data event is a call of [_socketEventData], an emitted event
    is recorded in a log, and the HMAC is a variable.  Listeners are taken
    not to call back into the peer. *)
Module P2P.

Definition buffer : Type := list Byte.byte.

(** [Buffer.alloc (n)]. *)
Definition alloc (n : nat) : buffer := replicate n Byte.x00.

(** [buf.readUInt32LE (offset)] and [buf.readUInt32BE (offset)]: [None]
    stands for the RangeError thrown when four bytes are not there. *)
Definition readUInt32LE (buf : buffer) (offset : N) : option N :=
  match drop (N.to_nat offset) buf with
  | b0 :: b1 :: b2 :: b3 :: _ =>
      Some (Byte.to_N b0 + 256 * (Byte.to_N b1 + 256 * (Byte.to_N b2 + 256 * Byte.to_N b3)))%N
  | _ => None
  end.

Definition readUInt32BE (buf : buffer) (offset : N) : option N :=
  match drop (N.to_nat offset) buf with
  | b0 :: b1 :: b2 :: b3 :: _ =>
      Some (Byte.to_N b3 + 256 * (Byte.to_N b2 + 256 * (Byte.to_N b1 + 256 * Byte.to_N b0)))%N
  | _ => None
  end.

(** [source.copy (target, targetStart)]: as much of [source] as fits. *)
Definition copy_into (target : buffer) (targetStart : nat) (source : buffer) : buffer :=
  take targetStart target
  ++ take (length target - targetStart) source
  ++ drop (targetStart + length source) target.

(** [buf.slice (start, end)]; the result is only read, so that it shares
    its memory with [buf] does not show. *)
Definition slice (buf : buffer) (start stop : nat) : buffer :=
  take (stop - start) (drop start buf).

(** What can be thrown. *)
Inductive thrown : Type :=
  | TypeError        (* a call of something that is not a function *)
  | RangeError       (* a read outside the buffer *)
  | UnhandledError.  (* an 'error' event emitted without a listener *)

Inductive completion : Type :=
  | Done
  | Threw (e : thrown).

(** The events of the peer's emitter. *)
Inductive event : Type :=
  | EvConnect
  | EvError (err : string)
  | EvEnd
  | EvClose.

Definition event_name (e : event) : string :=
  match e with
  | EvConnect => "connect"
  | EvError _ => "error"
  | EvEnd => "end"
  | EvClose => "close"
  end.

(** The fields of a [Peer] that its handlers use, the names of the events
    that have a listener, and the log of the events emitted. *)
Record Peer : Type := mkPeer {
  _state : option string;
  _header : N;
  _bufferSize : nat;
  _inBuffer : buffer;
  _inCursor : N;
  listeners : list string;
  emitted : list event
}.

Definition set_buffer (p : Peer) (buf : buffer) (cursor : N) : Peer :=
  {| _state := _state p; _header := _header p; _bufferSize := _bufferSize p;
     _inBuffer := buf; _inCursor := cursor;
     listeners := listeners p; emitted := emitted p |}.

(** [on (event, callback)]. *)
Definition on (p : Peer) (name : string) : Peer :=
  {| _state := _state p; _header := _header p; _bufferSize := _bufferSize p;
     _inBuffer := _inBuffer p; _inCursor := _inCursor p;
     listeners := listeners p ++ [name]; emitted := emitted p |}.

(** [this._eventEmitter.emit (...)]: an 'error' event without a listener is
    thrown by the emitter; any other event is delivered. *)
Definition emit (p : Peer) (e : event) : Peer * completion :=
  match e with
  | EvError _ =>
      if existsb (String.eqb "error") (listeners p)
      then ({| _state := _state p; _header := _header p; _bufferSize := _bufferSize p;
               _inBuffer := _inBuffer p; _inCursor := _inCursor p;
               listeners := listeners p; emitted := emitted p ++ [e] |}, Done)
      else (p, Threw UnhandledError)
  | _ =>
      ({| _state := _state p; _header := _header p; _bufferSize := _bufferSize p;
          _inBuffer := _inBuffer p; _inCursor := _inCursor p;
          listeners := listeners p; emitted := emitted p ++ [e] |}, Done)
  end.

(** The state in which the constructor leaves the fields, and [connect ()]:
    a zeroed buffer and the cursor at its start. *)
Definition connect (p : Peer) : Peer :=
  {| _state := Some "connecting"; _header := _header p; _bufferSize := _bufferSize p;
     _inBuffer := alloc (_bufferSize p); _inCursor := 0;
     listeners := listeners p; emitted := emitted p |}.

Definition Peer_new (header : N) (bufferSize : nat) : Peer :=
  connect {| _state := None; _header := header; _bufferSize := bufferSize;
             _inBuffer := []; _inCursor := 0; listeners := []; emitted := [] |}.

(** The command of a message: the non-zero bytes among the twelve that
    follow the header, as characters. *)
Definition command_of (message : buffer) : string :=
  String.string_of_list_ascii
    (List.map (fun b => ascii_of_N (Byte.to_N b))
       (List.filter (fun b => (0 <? Byte.to_N b)%N) (take 12 (drop 4 message)))).

Section Crypto.

(** [crypto.createHmac ('sha256', key).update (data).digest ('hex')]. *)
Variable hmac_sha256_hex : string -> buffer -> string.

(** [_calculateChecksum (command, data)]: a string of hexadecimal digits. *)
Definition _calculateChecksum (command : string) (data : buffer) : string :=
  hmac_sha256_hex command data.

(** [_processMessage (message)].  With a payload, the checksum computed is a
    string, and [readUInt32BE] is called on it; without one, [this.emit] is
    called, which [Peer] does not define: either call throws a TypeError.
    [Buffer.alloc (messageLength)] is taken to succeed: the handler calls
    this method on messages cut out of the peer's buffer, whose length
    field is below the size of that buffer. *)
Definition _processMessage (message : buffer) : completion :=
  match readUInt32LE message 16 with
  | None => Threw RangeError
  | Some messageLength =>
      let command := command_of message in
      match readUInt32BE message 20 with
      | None => Threw RangeError
      | Some checksum =>
          if (0 <? messageLength)%N then
            let payload :=
              copy_into (alloc (N.to_nat messageLength)) 0 (drop 24 message) in
            let checksumVerification := _calculateChecksum command payload in
            Threw TypeError
          else
            Threw TypeError
      end
  end.

End Crypto.

(** The loop of [_socketEventData]: [process] is the method
    [this._processMessage]; the result is the list of the messages handed to
    it, the last value of [messageEnd] and how the loop ended, or [None] when
    the budget of iterations is used up. *)
Fixpoint scan (process : buffer -> completion) (header : N) (buf : buffer)
    (inCursor : N) (fuel : nat) (cursor messageEnd : N)
    (calls : list buffer) : option (list buffer * N * completion) :=
  match fuel with
  | O => None
  | S fuel' =>
      if (cursor <? inCursor)%N then
        match readUInt32LE buf cursor with
        | None => Some (calls, messageEnd, Threw RangeError)
        | Some word =>
            if (word =? header)%N then
              let messageStart := cursor in
              if (messageStart + 16 <? inCursor)%N then
                match readUInt32LE buf (messageStart + 16) with
                | None => Some (calls, messageEnd, Threw RangeError)
                | Some messageLength =>
                    if (messageStart + messageLength + 24 <=? inCursor)%N then
                      let message :=
                        slice buf (N.to_nat messageStart)
                              (N.to_nat (messageStart + messageLength + 24)) in
                      match process message with
                      | Done =>
                          scan process header buf inCursor fuel'
                               (cursor + (messageLength + 24))%N
                               (messageStart + messageLength + 24)%N
                               (calls ++ [message])
                      | Threw e => Some (calls ++ [message], messageEnd, Threw e)
                      end
                    else
                      scan process header buf inCursor fuel'
                           (cursor + (messageLength + 24))%N messageEnd calls
                end
              else scan process header buf inCursor fuel' inCursor messageEnd calls
            else scan process header buf inCursor fuel' (cursor + 1)%N messageEnd calls
        end
      else Some (calls, messageEnd, Done)
  end.

(** [_socketEventData (data)] with [process] for [this._processMessage]:
    the peer afterwards, the messages handed to [process], and how the
    handler ended. *)
Definition _socketEventData_with (process : buffer -> completion) (p : Peer)
    (data : buffer) : option (Peer * list buffer * completion) :=
  if (N.of_nat (length (_inBuffer p)) <? N.of_nat (length data) + _inCursor p)%N then
    match emit p (EvError "Peer exceeded max receiving buffer") with
    | (p', Done) =>
        Some (set_buffer p' (_inBuffer p') (N.of_nat (length (_inBuffer p')) + 1), [], Done)
    | (p', Threw e) => Some (p', [], Threw e)
    end
  else
    let buf := copy_into (_inBuffer p) (N.to_nat (_inCursor p)) data in
    let inCursor := (_inCursor p + N.of_nat (length data))%N in
    let p1 := set_buffer p buf inCursor in
    if (inCursor <? 20)%N then Some (p1, [], Done)
    else
      match scan process (_header p) buf inCursor (S (N.to_nat inCursor)) 0 0 [] with
      | None => None
      | Some (calls, messageEnd, Done) =>
          if (0 <? messageEnd)%N then
            Some (set_buffer p1
                    (copy_into buf 0
                       (slice buf (N.to_nat messageEnd) (N.to_nat inCursor)))
                    (inCursor - messageEnd),
                  calls, Done)
          else Some (p1, calls, Done)
      | Some (calls, _, Threw e) => Some (p1, calls, Threw e)
      end.

(** [_socketEventData (data)] as the class has it. *)
Definition _socketEventData (hmac_sha256_hex : string -> buffer -> string)
    (p : Peer) (data : buffer) : option (Peer * list buffer * completion) :=
  _socketEventData_with (_processMessage hmac_sha256_hex) p data.

(** [out.writeUInt32LE (value, offset)], as the four bytes written. *)
Definition byte_of_N (n : N) : Byte.byte :=
  default Byte.x00 (Byte.of_N (n mod 256)).

Definition bytes32LE (value : N) : buffer :=
  [ byte_of_N value; byte_of_N (value / 256);
    byte_of_N (value / 65536); byte_of_N (value / 16777216) ].

(** The layout of a message, as [send] lays it out and [_socketEventData]
    takes it apart: header, twelve bytes of command, length of the payload,
    four bytes of checksum, payload. *)
Definition frame (header : N) (command checksum payload : buffer) : buffer :=
  bytes32LE header ++ command ++ bytes32LE (N.of_nat (length payload))
  ++ checksum ++ payload.

(** [f] is a message in that layout whose length field can hold the length
    of its payload. *)
Definition is_frame (header : N) (f : buffer) : Prop :=
  exists command checksum payload,
    f = frame header command checksum payload
    /\ length command = 12%nat /\ length checksum = 4%nat
    /\ (N.of_nat (length payload) < 4294967296)%N.

(** What one call of the handler does with a run [fs] of whole messages:
    the messages it hands to [process], which are those up to the first on
    which [process] throws, and how the last of these calls ended. *)
Fixpoint handed_on (process : buffer -> completion) (fs : list buffer)
    : list buffer * completion :=
  match fs with
  | [] => ([], Done)
  | f :: fs' =>
      match process f with
      | Done => (f :: fst (handed_on process fs'), snd (handed_on process fs'))
      | Threw e => ([f], Threw e)
      end
  end.

(** A peer with a buffer of 64 bytes and a listener for 'error', a hasher
    for the checksums, and a message [ping] with a payload of two bytes. *)
Definition demo_hmac : string -> buffer -> string := fun _ _ => "00"%string.

Definition demo_peer : Peer := on (Peer_new 2726085026 64) "error".

Definition demo_command : buffer :=
  [Byte.x70; Byte.x69; Byte.x6e; Byte.x67] ++ replicate 8 Byte.x00.

Definition demo_ping : buffer :=
  frame 2726085026 demo_command (replicate 4 Byte.x00) [Byte.x01; Byte.x02].

(** The same peer once [demo_ping] has arrived in full. *)
Definition demo_stuck : Peer :=
  set_buffer demo_peer (demo_ping ++ drop 26 (alloc 64)) 26.

End P2P.

(** * Properties *)

(** ** Property lists *)

Lemma obj_get_set_eq k v o : obj_get k (obj_set k v o) = Some v.
Proof.
  induction o as [|[k' v'] o IH]; simpl.
  - by rewrite String.eqb_refl.
  - destruct (String.eqb k' k) eqn:E; simpl; rewrite E; [done | exact IH].
Qed.

Lemma obj_delete_set k v o : obj_delete k (obj_set k v o) = obj_delete k o.
Proof.
  induction o as [|[k' v'] o IH]; simpl.
  - by rewrite String.eqb_refl.
  - destruct (String.eqb k' k) eqn:E; simpl; rewrite E; [done | by rewrite IH].
Qed.

Lemma obj_delete_idem k o : obj_delete k (obj_delete k o) = obj_delete k o.
Proof.
  induction o as [|[k' v'] o IH]; simpl; [done |].
  destruct (String.eqb k' k) eqn:E; simpl; [done | by rewrite E, IH].
Qed.

Lemma obj_get_delete k o : obj_get k (obj_delete k o) = None.
Proof.
  induction o as [|[k' v'] o IH]; simpl; [done |].
  destruct (String.eqb k' k) eqn:E; simpl; [done | by rewrite E].
Qed.

(** ** Blocks and their digest *)

Section BlockFacts.

Variable H : val -> string.

Lemma hash_with_seal b s :
  hash H (with_seal b s) = H (VObj (obj_delete "hash" (object s))).
Proof. reflexivity. Qed.

Lemma hash_set_hash b s v :
  hash H (with_seal b (set_prop "hash" v s)) = hash H (with_seal b s).
Proof. by rewrite !hash_with_seal; simpl; rewrite obj_delete_set. Qed.

Lemma hash_build b i p n :
  hash H (build H b i p n)
  = H (VObj (content_fields i (timestamp b) p (data b) n)).
Proof. reflexivity. Qed.

Lemma build_stored_hash b i p n :
  obj_get "hash" (object (build_seal H b i p n))
  = Some (VStr (hash H (build H b i p n))).
Proof. reflexivity. Qed.

Lemma build_fields b i p n :
  index (build_seal H b i p n) = i
  /\ previousHash (build_seal H b i p n) = p
  /\ nonce (build_seal H b i p n) = n
  /\ data (build H b i p n) = data b
  /\ timestamp (build H b i p n) = timestamp b.
Proof. by repeat split. Qed.

Lemma stored_hash_is_true o h :
  stored_hash_is o h = true <-> obj_get "hash" o = Some (VStr h).
Proof.
  unfold stored_hash_is.
  destruct (obj_get "hash" o) as [[| | |s| |]|]; try (split; [discriminate | congruence]).
  rewrite String.eqb_eq. split; congruence.
Qed.

Lemma link_is_true h p : link_is h p = true <-> p = LStr h.
Proof.
  destruct p as [n|s]; simpl; [split; discriminate |].
  rewrite String.eqb_eq. split; congruence.
Qed.

End BlockFacts.

(** C9.  The digest of a block is a function of the hashed record with its
    [hash] property removed: two sealed blocks whose records agree outside
    that property have the same digest; replacing the stored digest of a
    sealed block by any value, or removing it, leaves the digest unchanged;
    and the digest of a block sealed by [build], whatever is then put in its
    [hash] property, is the hasher's value at the record of index,
    timestamp, previousHash, payload and nonce alone, so that two blocks
    that agree on those five hash identically. *)
Theorem hash_independent_of_stored_digest (H : val -> string) :
  (forall (d d' : val) (ts ts' : Z) (s s' : Sealed),
      obj_delete "hash" (object s) = obj_delete "hash" (object s') ->
      hash H (mkBlock d ts (Some s)) = hash H (mkBlock d' ts' (Some s')))
  /\ (forall (d : val) (ts : Z) (s : Sealed) (v : val),
      hash H (mkBlock d ts (Some (set_prop "hash" v s)))
      = hash H (mkBlock d ts (Some s)))
  /\ (forall (d : val) (ts : Z) (s : Sealed),
      hash H (mkBlock d ts (Some (mkSealed (obj_delete "hash" (object s))
                                           (index s) (previousHash s) (nonce s))))
      = hash H (mkBlock d ts (Some s)))
  /\ (forall (b : Block) (i : Z) (p : link) (n : Z) (v : val),
      hash H (build H b i p n)
      = H (VObj (content_fields i (timestamp b) p (data b) n))
      /\ hash H (with_seal b (set_prop "hash" v (build_seal H b i p n)))
        = H (VObj (content_fields i (timestamp b) p (data b) n)))
  /\ (forall (b b' : Block) (i : Z) (p : link) (n : Z) (v v' : val),
      data b = data b' -> timestamp b = timestamp b' ->
      hash H (with_seal b (set_prop "hash" v (build_seal H b i p n)))
      = hash H (with_seal b' (set_prop "hash" v' (build_seal H b' i p n)))).
Proof.
  split; [|split; [|split; [|split]]].
  - intros d d' ts ts' s s' Heq. unfold hash, object_of; simpl. by rewrite Heq.
  - intros d ts s v. apply (hash_set_hash H (mkBlock d ts None)).
  - intros d ts s. unfold hash, object_of; simpl. by rewrite obj_delete_idem.
  - intros b i p n v. split; reflexivity.
  - intros b b' i p n v v' Hd Ht.
    rewrite !hash_set_hash. change (with_seal ?x (build_seal H ?x i p n)) with (build H x i p n).
    rewrite !hash_build. by rewrite Hd, Ht.
Qed.

(** Two blocks created at the same time with the same payload, sealed
    alike, one with its stored digest overwritten and the other with it
    set to null: the same digest. *)
Lemma hash_independent_of_stored_digest_witness :
  hash demo_hash
    (with_seal (Block_new (VStr "pay") 2000)
       (set_prop "hash" (VStr "forged")
          (build_seal demo_hash (Block_new (VStr "pay") 2000) 1 (LStr "00") 7)))
  = hash demo_hash
      (with_seal (Block_new (VStr "pay") 2000)
         (set_prop "hash" VNull
            (build_seal demo_hash (Block_new (VStr "pay") 2000) 1 (LStr "00") 7))).
Proof.
  exact (proj2 (proj2 (proj2 (proj2 (hash_independent_of_stored_digest demo_hash))))
           (Block_new (VStr "pay") 2000) (Block_new (VStr "pay") 2000)
           1 (LStr "00") 7 (VStr "forged") VNull eq_refl eq_refl).
Defined.

(** C3.  For sealed blocks [b] and [p], [isValid] is [false] when
    [p.index + 1] is not [b.index], when [b.previousHash] is not the
    recomputed digest of [p], and when the digest stored in [b] is not the
    recomputed digest of [b]; it is [true] exactly when none of the three
    fails.  It is a total boolean function: there is no throwing path. *)
Theorem isValid_three_checks (H : val -> string)
    (d dp : val) (ts tsp : Z) (t p : Sealed) :
  let b := mkBlock d ts (Some t) in
  let pb := mkBlock dp tsp (Some p) in
  (index p + 1 <> index t -> isValid H b pb = false)
  /\ (previousHash t <> LStr (hash H pb) -> isValid H b pb = false)
  /\ (obj_get "hash" (object t) <> Some (VStr (hash H b)) -> isValid H b pb = false)
  /\ (isValid H b pb = true <->
      index p + 1 = index t
      /\ previousHash t = LStr (hash H pb)
      /\ obj_get "hash" (object t) = Some (VStr (hash H b))).
Proof.
  intros b pb.
  assert (Hiff : isValid H b pb = true <->
      index p + 1 = index t
      /\ previousHash t = LStr (hash H pb)
      /\ obj_get "hash" (object t) = Some (VStr (hash H b))).
  { unfold isValid; simpl.
    destruct (index p + 1 =? index t) eqn:E1; simpl.
    - apply Z.eqb_eq in E1.
      destruct (link_is (hash H pb) (previousHash t)) eqn:E2; simpl.
      + apply link_is_true in E2.
        destruct (stored_hash_is (object t) (hash H b)) eqn:E3; simpl.
        * apply stored_hash_is_true in E3. by split.
        * split; [discriminate |]. intros (_ & _ & E).
          apply stored_hash_is_true in E. congruence.
      + split; [discriminate |]. intros (_ & E & _).
        apply link_is_true in E. congruence.
    - apply Z.eqb_neq in E1. split; [discriminate | intros (E & _); lia]. }
  split; [|split; [|split; [|exact Hiff]]];
    intros Hne; apply not_true_is_false; intros E;
    apply Hiff in E; tauto.
Qed.

(** The genesis block and a block sealed on top of it: the block is valid
    against the genesis block, and the genesis block is not valid against
    itself, its index not being its own plus one. *)
Lemma isValid_three_checks_witness :
  let g := build_seal demo_hash (Block_new (VStr "GENBLOCK") 1000) 0 (LNum (-1)) 0 in
  let gb := mkBlock (VStr "GENBLOCK") 1000 (Some g) in
  let t := build_seal demo_hash (Block_new (VStr "pay") 2000) 1
             (LStr (hash demo_hash gb)) 7 in
  isValid demo_hash (mkBlock (VStr "pay") 2000 (Some t)) gb = true
  /\ isValid demo_hash gb gb = false.
Proof.
  intros g gb t. split.
  - apply (proj2 (proj2 (proj2 (isValid_three_checks demo_hash (VStr "pay")
                                  (VStr "GENBLOCK") 2000 1000 t g)))).
    split; [|split]; vm_compute; reflexivity.
  - apply (proj1 (isValid_three_checks demo_hash (VStr "GENBLOCK") (VStr "GENBLOCK")
                    1000 1000 g g)).
    simpl. lia.
Defined.

(** ** The proof-of-work search *)

Section ProofOfWork.

Variable H : val -> string.

Lemma slice0_prefix p h :
  String.eqb (slice0 (String.length p) h) p = String.prefix p h.
Proof.
  unfold slice0. destruct (String.prefix p h) eqn:E.
  - apply String.prefix_correct in E. apply String.eqb_eq. exact E.
  - apply not_true_is_false. intros E'. apply String.eqb_eq in E'.
    apply String.prefix_correct in E'. congruence.
Qed.

Lemma attempts_succ_r k b :
  attempts H (S k) b = attempts H k (next_attempt H b).
Proof. unfold attempts. apply Nat.iter_succ_r. Qed.

Lemma next_attempt_sealed b s :
  seal b = Some s ->
  next_attempt H b = build H b (index s) (previousHash s) (nonce s + 1).
Proof. unfold next_attempt. by intros ->. Qed.

(** After any number of attempts a sealed block keeps its payload, its
    timestamp, its index and its previousHash; its nonce has grown by the
    number of attempts. *)
Lemma attempts_fields k b s :
  seal b = Some s ->
  exists s', seal (attempts H k b) = Some s'
    /\ index s' = index s /\ previousHash s' = previousHash s
    /\ nonce s' = nonce s + Z.of_nat k
    /\ data (attempts H k b) = data b
    /\ timestamp (attempts H k b) = timestamp b.
Proof.
  revert b s. induction k as [|k IH]; intros b s Hs.
  - exists s. simpl. repeat split; try done. lia.
  - rewrite attempts_succ_r.
    destruct (IH (next_attempt H b) (build_seal H b (index s) (previousHash s) (nonce s + 1)))
      as (s' & Hs' & Hi & Hp & Hn & Hd & Ht).
    { by rewrite (next_attempt_sealed b s Hs). }
    exists s'. rewrite Hs', Hi, Hp, Hn, Hd, Ht.
    rewrite (next_attempt_sealed b s Hs). simpl. repeat split; try done. lia.
Qed.

(** What a returning search has done. *)
Lemma pow_loop_returns p fuel b b' :
  pow_loop H p fuel b = Returns b' ->
  exists k, (k < fuel)%nat
    /\ b' = attempts H k b
    /\ digest_starts_with p b' = true
    /\ (forall j, (j < k)%nat -> digest_starts_with p (attempts H j b) = false).
Proof.
  revert b. induction fuel as [|fuel IH]; intros b; simpl; [discriminate |].
  destruct (seal b) as [s|] eqn:Hs; [|discriminate].
  assert (Hretry :
    digest_starts_with p b = false ->
    pow_loop H p fuel (build H b (index s) (previousHash s) (nonce s + 1)) = Returns b' ->
    exists k, (k < S fuel)%nat /\ b' = attempts H k b
      /\ digest_starts_with p b' = true
      /\ (forall j, (j < k)%nat -> digest_starts_with p (attempts H j b) = false)).
  { intros Hno Hrec. apply IH in Hrec as (k & Hk & -> & Hok & Hbefore).
    rewrite <- (next_attempt_sealed b s Hs) in *.
    exists (S k). rewrite attempts_succ_r.
    split; [lia|]. split; [done|]. split; [done|].
    intros [|j] Hj; [exact Hno |].
    rewrite attempts_succ_r. apply Hbefore. lia. }
  assert (Hd : digest_starts_with p b =
               match obj_get "hash" (object s) with
               | Some (VStr h) => String.prefix p h
               | _ => false
               end).
  { unfold digest_starts_with, object_of. by rewrite Hs. }
  destruct (obj_get "hash" (object s)) as [[| | |h|xs|]|] eqn:Hh; try discriminate.
  - rewrite slice0_prefix. destruct (String.prefix p h) eqn:Hp.
    + intros [= <-]. exists O.
      split; [lia|]. split; [done|]. split; [by rewrite Hd | intros j Hj; lia].
    + by apply Hretry.
  - by apply Hretry.
Qed.

(** The search returns as soon as its budget exceeds the number of failing
    attempts, on a block sealed by [build]. *)
Lemma pow_loop_total p b k :
  (exists s h, seal b = Some s /\ obj_get "hash" (object s) = Some (VStr h)) ->
  digest_starts_with p (attempts H k b) = true ->
  (forall j, (j < k)%nat -> digest_starts_with p (attempts H j b) = false) ->
  forall fuel, (k < fuel)%nat -> pow_loop H p fuel b = Returns (attempts H k b).
Proof.
  revert b. induction k as [|k IH]; intros b (s & h & Hs & Hh) Hok Hbefore fuel Hfuel.
  - destruct fuel as [|fuel]; [lia|]. simpl. rewrite Hs, Hh.
    unfold attempts in Hok; simpl in Hok.
    unfold digest_starts_with, object_of in Hok. rewrite Hs, Hh in Hok.
    by rewrite slice0_prefix, Hok.
  - destruct fuel as [|fuel]; [lia|]. simpl. rewrite Hs, Hh.
    assert (H0 : digest_starts_with p b = false) by (apply (Hbefore O); lia).
    unfold digest_starts_with, object_of in H0. rewrite Hs, Hh in H0.
    rewrite slice0_prefix, H0.
    rewrite <- (next_attempt_sealed b s Hs). rewrite attempts_succ_r.
    apply IH.
    + rewrite (next_attempt_sealed b s Hs). eexists _, _. split; [reflexivity|].
      apply build_stored_hash.
    + by rewrite <- attempts_succ_r.
    + intros j Hj. rewrite <- attempts_succ_r. apply Hbefore. lia.
    + lia.
Qed.

End ProofOfWork.

(** C8.  Without a prefix the search returns at once and changes nothing.
    With a prefix [p], a search that returns has made some number [k] of
    failed attempts, each of which raised the nonce by one and sealed the
    block again: the block found is the [k]-th attempt, its stored digest
    starts with [p], no earlier attempt's did, and its nonce is the starting
    nonce plus [k].  Conversely, on a block sealed by [build] the search does
    return once its budget exceeds the number of failing attempts. *)
Theorem proofOfWork_contract (H : val -> string) (c : Chain) (fuel : nat)
    (block : loc) (σ : gmap loc Block) :
  (powHashPrefix c = None -> _proofOfWork H c fuel block σ = Returns σ)
  /\ (forall p b σ',
        powHashPrefix c = Some p -> σ !! block = Some b ->
        _proofOfWork H c fuel block σ = Returns σ' ->
        exists k, (k < fuel)%nat
          /\ σ' = <[block := attempts H k b]> σ
          /\ digest_starts_with p (attempts H k b) = true
          /\ (forall j, (j < k)%nat -> digest_starts_with p (attempts H j b) = false)
          /\ nonce_of (attempts H k b) = nonce_of b + Z.of_nat k)
  /\ (forall p b k,
        powHashPrefix c = Some p -> σ !! block = Some b ->
        (exists s h, seal b = Some s /\ obj_get "hash" (object s) = Some (VStr h)) ->
        digest_starts_with p (attempts H k b) = true ->
        (forall j, (j < k)%nat -> digest_starts_with p (attempts H j b) = false) ->
        (k < fuel)%nat ->
        _proofOfWork H c fuel block σ = Returns (<[block := attempts H k b]> σ)).
Proof.
  split; [|split].
  - intros Hp. unfold _proofOfWork. by rewrite Hp.
  - intros p b σ' Hp Hb. unfold _proofOfWork. rewrite Hp, Hb.
    destruct (pow_loop H p fuel b) as [b'| | |] eqn:Hloop; try discriminate.
    intros [= <-]. apply pow_loop_returns in Hloop as (k & Hk & -> & Hok & Hbefore).
    exists k. repeat split; try done.
    unfold nonce_of. destruct (seal b) as [s|] eqn:Hs.
    + destruct (attempts_fields H k b s Hs) as (s' & Hs' & _ & _ & Hn & _).
      by rewrite Hs'.
    + destruct fuel; simpl in *; [lia|].
      unfold digest_starts_with, object_of in Hok.
      assert (Hun : seal (attempts H k b) = None).
      { clear -Hs. induction k as [|k IH]; [done|].
        unfold attempts in *. simpl. unfold next_attempt at 1. by rewrite IH. }
      rewrite Hun in Hok. discriminate.
  - intros p b k Hp Hb Hsealed Hok Hbefore Hk. unfold _proofOfWork. rewrite Hp, Hb.
    by rewrite (pow_loop_total H p b k Hsealed Hok Hbefore fuel Hk).
Qed.

(** At the concrete ledger with the prefix ["a"]: from the nonce 7 the
    first twenty-one seals fail and the next one, with nonce 28, is
    returned. *)
Lemma proofOfWork_contract_witness :
  let c := fst (demo_init demo_hash (Some "a")) in
  let b := build demo_hash (Block_new (VStr "pay") 2000) 1
             (LStr (hash demo_hash
                      (build demo_hash (Block_new (VStr "GENBLOCK") 1000) 0 (LNum (-1)) 0)))
             7 in
  let σ := <[demo_candidate := b]> (demo_heap demo_hash (Some "a")) in
  _proofOfWork demo_hash c 30 demo_candidate σ
  = Returns (<[demo_candidate := attempts demo_hash 21 b]> σ)
  /\ nonce_of (attempts demo_hash 21 b) = 28.
Proof.
  intros c b σ. split; [|vm_compute; reflexivity].
  apply (proj2 (proj2 (proofOfWork_contract demo_hash c 30 demo_candidate σ)) "a" b 21%nat).
  - reflexivity.
  - apply lookup_insert_eq.
  - eexists _, _. split; reflexivity.
  - vm_compute; reflexivity.
  - intros j Hj.
    do 21 (destruct j as [|j]; [vm_compute; reflexivity|]). lia.
  - lia.
Defined.

(** ** [add] *)

Section Add.

Variable H : val -> string.

(** A block sealed by [build] and then put through any number of attempts
    stores the digest of its own record. *)
Lemma attempts_stored_hash k b i p n :
  obj_get "hash" (object_of (attempts H k (build H b i p n)))
  = Some (VStr (hash H (attempts H k (build H b i p n)))).
Proof.
  destruct k as [|k]; [reflexivity|].
  change (attempts H (S k) ?x) with (next_attempt H (attempts H k x)).
  destruct (attempts_fields H k (build H b i p n) _ eq_refl) as (s' & Hs' & _).
  rewrite (next_attempt_sealed H _ s' Hs'). reflexivity.
Qed.

(** Its digest is the hasher's value at the five content fields, the nonce
    being the starting one plus the number of attempts. *)
Lemma attempts_hash k b i p rnd0 :
  hash H (attempts H k (build H b i p rnd0))
  = H (VObj (content_fields i (timestamp b) p (data b) (rnd0 + Z.of_nat k))).
Proof.
  destruct k as [|k].
  - unfold attempts; simpl. rewrite hash_build. by rewrite Z.add_0_r.
  - change (attempts H (S k) ?x) with (next_attempt H (attempts H k x)).
    destruct (attempts_fields H k (build H b i p rnd0) _ eq_refl)
      as (s' & Hs' & Hi & Hp & Hn & Hd & Ht).
    rewrite (next_attempt_sealed H _ s' Hs'), hash_build.
    rewrite Hi, Hp, Hn, Hd, Ht.
    by replace (rnd0 + Z.of_nat (S k)) with (rnd0 + Z.of_nat k + 1) by lia.
Qed.

(** What the search leaves at the reference it was given. *)
Lemma proofOfWork_block c fuel l σ b σ' :
  σ !! l = Some b ->
  _proofOfWork H c fuel l σ = Returns σ' ->
  exists k, σ' = <[l := attempts H k b]> σ
    /\ (powHashPrefix c = None -> k = O)
    /\ (forall p, powHashPrefix c = Some p ->
          digest_starts_with p (attempts H k b) = true).
Proof.
  intros Hb. unfold _proofOfWork. destruct (powHashPrefix c) as [p|] eqn:Hp.
  - rewrite Hb. destruct (pow_loop H p fuel b) as [b'| | |] eqn:Hloop; try discriminate.
    intros [= <-]. apply pow_loop_returns in Hloop as (k & _ & -> & Hok & _).
    exists k. split; [done|]. split; [discriminate|]. by intros ? [= <-].
  - intros [= <-]. exists O. split; [|split; [done | discriminate]].
    unfold attempts; simpl. by rewrite insert_id.
Qed.

(** The shape of every returning call of [add]. *)
Lemma add_returns c rnd fuel l σ c' σ' r :
  add H c rnd fuel l σ = Returns (c', σ', r) ->
  exists head hb hs b k b2 s2 hb2,
    currentBlock c = Some head /\ σ !! head = Some hb /\ seal hb = Some hs
    /\ σ !! l = Some b
    /\ b2 = attempts H k (build H b (index hs + 1) (LStr (hash H hb)) rnd)
    /\ σ' = <[l := b2]> σ
    /\ seal b2 = Some s2
    /\ σ' !! head = Some hb2
    /\ (powHashPrefix c = None -> k = O)
    /\ (forall p, powHashPrefix c = Some p -> digest_starts_with p b2 = true)
    /\ ((isValid H b2 hb2 = false /\ r = None /\ c' = c)
        \/ (isValid H b2 hb2 = true
            /\ chain_insert (row_of_block H b2 s2) (_chain c) = None
            /\ r = None /\ c' = c)
        \/ (isValid H b2 hb2 = true
            /\ chain_insert (row_of_block H b2 s2) (_chain c)
               = Some (_chain c ++ [row_of_block H b2 s2])
            /\ r = Some (hash H b2)
            /\ c' = set_currentBlock (set_chain c (_chain c ++ [row_of_block H b2 s2])) l)).
Proof.
  unfold add.
  destruct (currentBlock c) as [head|] eqn:Hc; [|discriminate].
  destruct (σ !! head) as [hb|] eqn:Hhb; [|discriminate].
  destruct (σ !! l) as [b|] eqn:Hb; [|discriminate].
  destruct (seal hb) as [hs|] eqn:Hhs; [|discriminate].
  set (b1 := build H b (index hs + 1) (LStr (hash H hb)) rnd).
  destruct (_proofOfWork H c fuel l (<[l:=b1]> σ)) as [σ2| | |] eqn:Hpow; try discriminate.
  apply proofOfWork_block with (b := b1) in Hpow as (k & Hσ2 & Hk0 & Hkp);
    [|apply lookup_insert_eq].
  rewrite insert_insert_eq in Hσ2.
  assert (Hl2 : σ2 !! l = Some (attempts H k b1)) by (rewrite Hσ2; apply lookup_insert_eq).
  rewrite Hl2.
  destruct (attempts_fields H k b1 _ eq_refl) as (s2 & Hs2 & _).
  destruct (σ2 !! head) as [hb2|] eqn:Hhb2; [|discriminate].
  intros Hret.
  exists head, hb, hs, b, k, (attempts H k b1), s2, hb2.
  assert (Hsh := attempts_stored_hash k b (index hs + 1) (LStr (hash H hb)) rnd).
  fold b1 in Hsh.
  destruct (isValid H (attempts H k b1) hb2) eqn:Hv.
  - unfold _addBlockToChain in Hret. rewrite Hs2 in Hret.
    unfold chain_insert in *.
    destruct (existsb _ (_chain c)) eqn:Hex.
    + injection Hret as <- <- <-. repeat (split; [done|]). right; left. done.
    + rewrite Hsh in Hret. injection Hret as <- <- <-.
      repeat (split; [done|]). right; right. done.
  - injection Hret as <- <- <-. repeat (split; [done|]). left. done.
Qed.

(** A candidate other than the head is valid against the head once sealed
    and searched: the head has not moved. *)
Lemma isValid_after_build k b hb hs rnd :
  seal hb = Some hs ->
  isValid H (attempts H k (build H b (index hs + 1) (LStr (hash H hb)) rnd)) hb
  = true.
Proof.
  intros Hhs.
  set (b1 := build H b (index hs + 1) (LStr (hash H hb)) rnd).
  destruct (attempts_fields H k b1 _ eq_refl) as (s2 & Hs2 & Hi & Hp & _).
  assert (Hsh := attempts_stored_hash k b (index hs + 1) (LStr (hash H hb)) rnd).
  fold b1 in Hsh. unfold object_of in Hsh. rewrite Hs2 in Hsh.
  unfold isValid. rewrite Hhs, Hs2, Hi, Hp. simpl.
  rewrite Z.eqb_refl, String.eqb_refl. simpl.
  unfold stored_hash_is. rewrite Hsh. by rewrite String.eqb_refl.
Qed.

(** [add] returns whenever the search does. *)
Lemma add_total c rnd fuel l σ head hb hs b σ2 :
  currentBlock c = Some head -> σ !! head = Some hb -> seal hb = Some hs ->
  σ !! l = Some b ->
  _proofOfWork H c fuel l
    (<[l := build H b (index hs + 1) (LStr (hash H hb)) rnd]> σ) = Returns σ2 ->
  exists c' r, add H c rnd fuel l σ = Returns (c', σ2, r).
Proof.
  intros Hc Hhb Hhs Hb Hpow. unfold add. rewrite Hc, Hhb, Hb, Hhs, Hpow.
  set (b1 := build H b (index hs + 1) (LStr (hash H hb)) rnd) in *.
  apply proofOfWork_block with (b := b1) in Hpow as (k & Hσ2 & _);
    [|apply lookup_insert_eq].
  rewrite insert_insert_eq in Hσ2.
  assert (Hl2 : σ2 !! l = Some (attempts H k b1)) by (rewrite Hσ2; apply lookup_insert_eq).
  rewrite Hl2.
  assert (Hh2 : is_Some (σ2 !! head)).
  { rewrite Hσ2. destruct (decide (l = head)) as [->|Hne].
    - rewrite lookup_insert_eq. eauto.
    - rewrite lookup_insert_ne by done. eauto. }
  destruct Hh2 as [hb2 Hhb2]. rewrite Hhb2.
  destruct (attempts_fields H k b1 _ eq_refl) as (s2 & Hs2 & _).
  assert (Hsh := attempts_stored_hash k b (index hs + 1) (LStr (hash H hb)) rnd).
  fold b1 in Hsh.
  destruct (isValid H (attempts H k b1) hb2); [|eauto].
  unfold _addBlockToChain. rewrite Hs2.
  destruct (chain_insert _ (_chain c)); [|eauto].
  rewrite Hsh. eauto.
Qed.

(** The shape of a successful call: the candidate, sealed on the head and
    searched, is the new head; its row is the one appended; the digest
    returned is its own. *)
Lemma add_success c rnd fuel l σ c' σ' h :
  add H c rnd fuel l σ = Returns (c', σ', Some h) ->
  exists hb hs b k b2 s2,
    seal hb = Some hs
    /\ b2 = attempts H k (build H b (index hs + 1) (LStr (hash H hb)) rnd)
    /\ σ' = <[l := b2]> σ /\ seal b2 = Some s2
    /\ c' = set_currentBlock (set_chain c (_chain c ++ [row_of_block H b2 s2])) l
    /\ h = hash H b2
    /\ obj_get "hash" (object s2) = Some (VStr h)
    /\ (forall p, powHashPrefix c = Some p -> digest_starts_with p b2 = true)
    /\ previousHash s2 = LStr (hash H hb)
    /\ h = H (VObj (content_fields (index s2) (timestamp b2) (previousHash s2)
                                   (data b2) (nonce s2))).
Proof.
  intros Hadd.
  apply add_returns in Hadd
    as (head & hb & hs & b & k & b2 & s2 & hb2 & Hc & Hhb & Hhs & Hb & Hb2 & Hσ'
        & Hs2 & Hhb2 & _ & Hok & Hcases).
  destruct Hcases as [(_ & Hr & _)|[(_ & _ & Hr & _)|(Hv & Hins & Hr & Hc')]];
    try discriminate.
  injection Hr as ->.
  exists hb, hs, b, k, b2, s2.
  assert (Hsh := attempts_stored_hash k b (index hs + 1) (LStr (hash H hb)) rnd).
  destruct (attempts_fields H k (build H b (index hs + 1) (LStr (hash H hb)) rnd)
              _ eq_refl) as (s' & Hs' & Hi & Hp & Hn & Hd & Ht).
  assert (Hh := attempts_hash k b (index hs + 1) (LStr (hash H hb)) rnd).
  rewrite <- Hb2 in Hsh, Hs', Hd, Ht, Hh.
  rewrite Hs2 in Hs'. injection Hs' as <-.
  unfold object_of in Hsh. rewrite Hs2 in Hsh.
  repeat (split; [done|]).
  rewrite Hh, Hi, Hp, Hn, Hd, Ht. reflexivity.
Qed.

(** [add] never writes to the anchor table. *)
Lemma add_keeps_anchors c rnd fuel l σ c' σ' r :
  add H c rnd fuel l σ = Returns (c', σ', r) -> _anchor c' = _anchor c.
Proof.
  intros Hadd.
  apply add_returns in Hadd
    as (head & hb & hs & b & k & b2 & s2 & hb2 & _ & _ & _ & _ & _ & _ & _ & _ & _
        & _ & Hcases).
  by destruct Hcases as [(_ & _ & ->)|[(_ & _ & _ & ->)|(_ & _ & _ & ->)]].
Qed.

(** A failed [add] leaves the head where the range query of [anchor] sees
    the same rows: the head block is untouched, or, when the head itself
    was the candidate, re-sealed one index up, above every row of a table
    that the head topped. *)
Lemma failed_add_head c rnd fuel l σ c' σ' head hb hs :
  currentBlock c = Some head -> σ !! head = Some hb -> seal hb = Some hs ->
  (forall x, In x (_chain c) -> row_i x <= index hs) ->
  add H c rnd fuel l σ = Returns (c', σ', None) ->
  c' = c
  /\ exists hb' hs',
      σ' !! head = Some hb' /\ seal hb' = Some hs'
      /\ forall x, In x (_chain c) ->
                   (row_i x <=? index hs') = (row_i x <=? index hs).
Proof.
  intros Hc Hhb Hhs Htop Hadd.
  apply add_returns in Hadd
    as (head' & hb0 & hs0 & b & k & b2 & s2 & hb2 & Hc' & Hhb' & Hhs' & Hb & Hb2
        & Hσ' & Hs2 & Hhb2 & _ & _ & Hcases).
  rewrite Hc in Hc'. injection Hc' as <-.
  rewrite Hhb in Hhb'. injection Hhb' as <-.
  rewrite Hhs in Hhs'. injection Hhs' as <-.
  split.
  { destruct Hcases as [(_ & _ & E)|[(_ & _ & _ & E)|(_ & _ & E & _)]];
      [done | done | discriminate]. }
  destruct (decide (l = head)) as [->|Hne].
  - exists b2, s2. subst σ'. rewrite lookup_insert_eq. split; [done|]. split; [done|].
    intros x Hx. specialize (Htop x Hx).
    destruct (attempts_fields H k (build H b (index hs + 1) (LStr (hash H hb)) rnd)
                _ eq_refl) as (s' & Hs' & Hi & _).
    rewrite <- Hb2, Hs2 in Hs'. injection Hs' as <-. simpl in Hi.
    rewrite Hi. transitivity true; [|symmetry]; apply Z.leb_le; lia.
  - exists hb, hs. subst σ'. rewrite lookup_insert_ne by done. by repeat split.
Qed.

End Add.

(** C4.  On a ledger whose head is a sealed block, once the search has
    returned: if the candidate fails [isValid] against the head, or the
    insert is refused (as it is on a digest already in the table), [add]
    returns [false] and the chain, its head reference included, is as
    before; if the candidate is valid and the insert accepted, the head
    becomes the candidate and [add] returns the candidate's digest. *)
Theorem add_outcomes (H : val -> string) (c : Chain) (rnd : Z) (fuel : nat)
    (l : loc) (σ σ2 : gmap loc Block) (head : loc) (hb b : Block) (hs : Sealed) :
  currentBlock c = Some head -> σ !! head = Some hb -> seal hb = Some hs ->
  σ !! l = Some b ->
  _proofOfWork H c fuel l
    (<[l := build H b (index hs + 1) (LStr (hash H hb)) rnd]> σ) = Returns σ2 ->
  exists b2 s2 hb2,
    σ2 !! l = Some b2 /\ seal b2 = Some s2 /\ σ2 !! head = Some hb2
    /\ (isValid H b2 hb2 = false ->
        add H c rnd fuel l σ = Returns (c, σ2, None))
    /\ (isValid H b2 hb2 = true ->
        chain_insert (row_of_block H b2 s2) (_chain c) = None ->
        add H c rnd fuel l σ = Returns (c, σ2, None))
    /\ (forall t, isValid H b2 hb2 = true ->
        chain_insert (row_of_block H b2 s2) (_chain c) = Some t ->
        add H c rnd fuel l σ
        = Returns (set_currentBlock (set_chain c t) l, σ2, Some (hash H b2))
        /\ currentBlock (set_currentBlock (set_chain c t) l) = Some l).
Proof.
  intros Hc Hhb Hhs Hb Hpow. unfold add. rewrite Hc, Hhb, Hb, Hhs, Hpow.
  set (b1 := build H b (index hs + 1) (LStr (hash H hb)) rnd) in *.
  apply proofOfWork_block with (b := b1) in Hpow as (k & Hσ2 & _);
    [|apply lookup_insert_eq].
  rewrite insert_insert_eq in Hσ2.
  assert (Hl2 : σ2 !! l = Some (attempts H k b1)) by (rewrite Hσ2; apply lookup_insert_eq).
  assert (Hh2 : is_Some (σ2 !! head)).
  { rewrite Hσ2. destruct (decide (l = head)) as [->|Hne].
    - rewrite lookup_insert_eq. eauto.
    - rewrite lookup_insert_ne by done. eauto. }
  destruct Hh2 as [hb2 Hhb2].
  destruct (attempts_fields H k b1 _ eq_refl) as (s2 & Hs2 & _).
  assert (Hsh := attempts_stored_hash H k b (index hs + 1) (LStr (hash H hb)) rnd).
  fold b1 in Hsh.
  exists (attempts H k b1), s2, hb2. rewrite Hl2, Hhb2.
  split; [done|]. split; [done|]. split; [done|].
  unfold _addBlockToChain. rewrite Hs2.
  split; [|split].
  - by intros ->.
  - by intros -> ->.
  - intros t -> ->. by rewrite Hsh.
Qed.

(** At a concrete ledger: with a hasher whose digests all collide, the
    candidate is valid but its insert is refused, and [add] fails. *)
Lemma add_outcomes_witness :
  add const_hash (fst (demo_init const_hash None)) 7 1 demo_candidate
      (demo_heap const_hash None)
  = Returns (fst (demo_init const_hash None),
             <[demo_candidate := build const_hash (Block_new (VStr "pay") 2000) 1
                                   (LStr "00") 7]> (demo_heap const_hash None),
             None).
Proof.
  destruct (add_outcomes const_hash (fst (demo_init const_hash None)) 7 1
              demo_candidate (demo_heap const_hash None)
              (<[demo_candidate := build const_hash (Block_new (VStr "pay") 2000) 1
                                     (LStr "00") 7]> (demo_heap const_hash None))
              1%positive
              (build const_hash (Block_new (VStr "GENBLOCK") 1000) 0 (LNum (-1)) 0)
              (Block_new (VStr "pay") 2000)
              (build_seal const_hash (Block_new (VStr "GENBLOCK") 1000) 0 (LNum (-1)) 0))
    as (b2 & s2 & hb2 & Hb2 & Hs2 & Hhb2 & _ & Hfail & _);
    [ vm_compute; reflexivity .. | ].
  vm_compute in Hb2. injection Hb2 as <-.
  vm_compute in Hs2. injection Hs2 as <-.
  vm_compute in Hhb2. injection Hhb2 as <-.
  apply Hfail; vm_compute; reflexivity.
Defined.

(** C5.  A successful [add], whatever the payload, returns the digest that
    the new head stores, that a fresh [hash ()] of the new head recomputes
    from its fields, and that the committed row holds. *)
Theorem add_returns_head_digest (H : val -> string) (c : Chain) (rnd : Z)
    (fuel : nat) (l : loc) (σ : gmap loc Block)
    (c' : Chain) (σ' : gmap loc Block) (h : string) :
  add H c rnd fuel l σ = Returns (c', σ', Some h) ->
  exists b2 s2 row,
    currentBlock c' = Some l /\ σ' !! l = Some b2 /\ seal b2 = Some s2
    /\ hash H b2 = h
    /\ h = H (VObj (content_fields (index s2) (timestamp b2) (previousHash s2)
                                   (data b2) (nonce s2)))
    /\ obj_get "hash" (object s2) = Some (VStr h)
    /\ _chain c' = _chain c ++ [row] /\ row_hash row = h /\ row_i row = index s2.
Proof.
  intros (hb & hs & b & k & b2 & s2 & _ & _ & -> & Hs2 & -> & Hh & Hst & _ & _ & Hrec)
         %add_success.
  exists b2, s2, (row_of_block H b2 s2). simpl.
  split; [done|]. split; [apply lookup_insert_eq|]. by repeat split.
Qed.

(** At a concrete ledger with the prefix ["a"]: the search takes 21 attempts
    from the nonce 7 and the digest returned is the one the row holds. *)
Lemma add_returns_head_digest_witness :
  exists c' σ' h row,
    demo_add demo_hash (Some "a") = Returns (c', σ', Some h)
    /\ last (_chain c') = Some row /\ row_hash row = h /\ row_nonce row = 28.
Proof.
  set (r := demo_added demo_hash (Some "a")).
  assert (Hadd : demo_add demo_hash (Some "a")
                 = Returns (fst (fst r), snd (fst r), Some (default "" (snd r))))
    by (vm_compute; reflexivity).
  destruct (add_returns_head_digest _ _ _ _ _ _ _ _ _ Hadd)
    as (b2 & s2 & row & _ & _ & _ & _ & _ & _ & Hchain & Hrow & _).
  exists (fst (fst r)), (snd (fst r)), (default "" (snd r)), row.
  split; [exact Hadd|]. rewrite Hchain, last_snoc.
  split; [done|]. split; [done|].
  vm_compute in Hchain. injection Hchain as <-. reflexivity.
Defined.

(** C10.  A call of [add] that returns [false] leaves the chain as it was,
    head reference and block table included, and leaves every other block
    of the heap alone, but the candidate stays as the seal and the search
    made it: its index is the head's plus one, its previousHash the head's
    digest, its nonce the random start plus the attempts of the search, and
    its stored digest the digest of that record. *)
Theorem failed_add_mutates_candidate (H : val -> string) (c : Chain) (rnd : Z)
    (fuel : nat) (l : loc) (σ : gmap loc Block)
    (c' : Chain) (σ' : gmap loc Block) (head : loc) (hb : Block) (hs : Sealed) :
  currentBlock c = Some head -> σ !! head = Some hb -> seal hb = Some hs ->
  add H c rnd fuel l σ = Returns (c', σ', None) ->
  c' = c
  /\ (forall l', l' <> l -> σ' !! l' = σ !! l')
  /\ exists k b2 s2,
      σ' !! l = Some b2 /\ seal b2 = Some s2
      /\ index s2 = index hs + 1
      /\ previousHash s2 = LStr (hash H hb)
      /\ nonce s2 = rnd + Z.of_nat k
      /\ obj_get "hash" (object s2) = Some (VStr (hash H b2)).
Proof.
  intros Hc Hhb Hhs Hadd.
  apply add_returns in Hadd
    as (head' & hb' & hs' & b & k & b2 & s2 & hb2 & Hc' & Hhb' & Hhs' & Hb & Hb2
        & Hσ' & Hs2 & Hhb2 & _ & _ & Hcases).
  rewrite Hc in Hc'. injection Hc' as <-.
  rewrite Hhb in Hhb'. injection Hhb' as <-.
  rewrite Hhs in Hhs'. injection Hhs' as <-.
  split.
  { destruct Hcases as [(_ & _ & E)|[(_ & _ & _ & E)|(_ & _ & E & _)]];
      [done | done | discriminate]. }
  split.
  { intros l' Hne. subst σ'. by rewrite lookup_insert_ne. }
  exists k, b2, s2.
  split; [subst σ'; apply lookup_insert_eq|]. split; [done|].
  destruct (attempts_fields H k (build H b (index hs + 1) (LStr (hash H hb)) rnd)
              _ eq_refl) as (s' & Hs' & Hi & Hp & Hn & _).
  rewrite <- Hb2, Hs2 in Hs'. injection Hs' as <-.
  split; [done|]. split; [done|]. split; [done|].
  assert (Hsh := attempts_stored_hash H k b (index hs + 1) (LStr (hash H hb)) rnd).
  rewrite <- Hb2 in Hsh. unfold object_of in Hsh. by rewrite Hs2 in Hsh.
Qed.

(** At a concrete ledger: the head itself is passed to [add].  The call
    fails, the table keeps its single row, and the block, which is still the
    head, now carries index 1 and nonce 7. *)
Lemma failed_add_mutates_candidate_witness :
  exists σ' b2 s2,
    add demo_hash (fst (demo_init demo_hash None)) 7 1 1%positive
        (snd (demo_init demo_hash None))
    = Returns (fst (demo_init demo_hash None), σ', None)
    /\ σ' !! 1%positive = Some b2 /\ seal b2 = Some s2
    /\ index s2 = 1 /\ nonce s2 = 7.
Proof.
  set (c := fst (demo_init demo_hash None)).
  set (σ := snd (demo_init demo_hash None)).
  set (r := returned (c, σ, None) (add demo_hash c 7 1 1%positive σ)).
  assert (Hadd : add demo_hash c 7 1 1%positive σ = Returns (c, snd (fst r), None))
    by (vm_compute; reflexivity).
  destruct (failed_add_mutates_candidate demo_hash c 7 1%nat 1%positive σ c
              (snd (fst r)) 1%positive
              (build demo_hash (Block_new (VStr "GENBLOCK") 1000) 0 (LNum (-1)) 0)
              (build_seal demo_hash (Block_new (VStr "GENBLOCK") 1000) 0 (LNum (-1)) 0)
              eq_refl eq_refl eq_refl Hadd)
    as (_ & _ & k & b2 & s2 & Hb2 & Hs2 & Hi & _ & Hn & _).
  exists (snd (fst r)), b2, s2.
  split; [exact Hadd|]. split; [done|]. split; [done|]. split; [exact Hi|].
  vm_compute in Hb2. injection Hb2 as <-.
  vm_compute in Hs2. injection Hs2 as <-. reflexivity.
Defined.

(** ** The proof-of-work prefix of committed blocks *)

(** The genesis block is committed as [build (0, -1, 0)] made it. *)
Lemma initialize_genesis (H : val -> string) c now σ :
  _chain c = [] ->
  exists row,
    _chain (initialize H c true now σ).1.1 = [row]
    /\ row_i row = 0 /\ row_nonce row = 0
    /\ row_hash row = H (VObj (content_fields 0 now (LNum (-1)) (VStr "GENBLOCK") 0)).
Proof.
  intros Hempty. unfold initialize. rewrite Hempty. simpl.
  unfold _addBlockToChain, chain_insert. simpl. rewrite Hempty. simpl.
  eexists. split; [reflexivity|]. by repeat split.
Qed.

(** A candidate other than the head, on a chain without prefix: [add]
    returns for every budget, and returns the digest as soon as the insert
    is accepted. *)
Lemma add_without_prefix (H : val -> string) c rnd fuel l σ head hb hs b t :
  powHashPrefix c = None ->
  currentBlock c = Some head -> σ !! head = Some hb -> seal hb = Some hs ->
  σ !! l = Some b -> l <> head ->
  chain_insert
    (row_of_block H (build H b (index hs + 1) (LStr (hash H hb)) rnd)
                    (build_seal H b (index hs + 1) (LStr (hash H hb)) rnd))
    (_chain c) = Some t ->
  add H c rnd fuel l σ
  = Returns (set_currentBlock (set_chain c t) l,
             <[l := build H b (index hs + 1) (LStr (hash H hb)) rnd]> σ,
             Some (hash H (build H b (index hs + 1) (LStr (hash H hb)) rnd))).
Proof.
  intros Hp Hc Hhb Hhs Hb Hne Hins.
  unfold add. rewrite Hc, Hhb, Hb, Hhs. unfold _proofOfWork. rewrite Hp.
  rewrite lookup_insert_eq, lookup_insert_ne, Hhb by done.
  assert (Hv := isValid_after_build H O b hb hs rnd Hhs).
  unfold attempts in Hv; simpl in Hv. rewrite Hv.
  unfold _addBlockToChain. simpl. by rewrite Hins.
Qed.

(** C2, as the code has it.  With a prefix [p] configured, every block that
    [add] commits has a digest that starts with [p]: a successful [add]
    appends exactly one row, whose digest is the one returned and starts
    with [p].  The genesis block seeded by [initialize] is committed as
    sealed with nonce 0, without a search.  With no prefix, [add] of a
    candidate other than the head succeeds, whatever the hasher yields, as
    soon as the table accepts the row. *)
Theorem committed_digest_has_prefix (H : val -> string) (c : Chain) (rnd : Z)
    (fuel : nat) (l : loc) (σ : gmap loc Block) :
  (forall p c' σ' h,
      powHashPrefix c = Some p ->
      add H c rnd fuel l σ = Returns (c', σ', Some h) ->
      String.prefix p h = true
      /\ exists row, _chain c' = _chain c ++ [row] /\ row_hash row = h)
  /\ (forall now,
      _chain c = [] ->
      exists row,
        _chain (initialize H c true now σ).1.1 = [row]
        /\ row_i row = 0 /\ row_nonce row = 0
        /\ row_hash row
           = H (VObj (content_fields 0 now (LNum (-1)) (VStr "GENBLOCK") 0)))
  /\ (forall head hb hs b t,
      powHashPrefix c = None ->
      currentBlock c = Some head -> σ !! head = Some hb -> seal hb = Some hs ->
      σ !! l = Some b -> l <> head ->
      chain_insert
        (row_of_block H (build H b (index hs + 1) (LStr (hash H hb)) rnd)
                        (build_seal H b (index hs + 1) (LStr (hash H hb)) rnd))
        (_chain c) = Some t ->
      add H c rnd fuel l σ
      = Returns (set_currentBlock (set_chain c t) l,
                 <[l := build H b (index hs + 1) (LStr (hash H hb)) rnd]> σ,
                 Some (hash H (build H b (index hs + 1) (LStr (hash H hb)) rnd)))).
Proof.
  split; [|split].
  - intros p c' σ' h Hp
      (hb & hs & b & k & b2 & s2 & _ & _ & _ & Hs2 & -> & Hh & Hst & Hok & _)
      %add_success.
    specialize (Hok p Hp).
    unfold digest_starts_with, object_of in Hok. rewrite Hs2, Hst in Hok.
    split; [done|]. exists (row_of_block H b2 s2). by split.
  - intros now. apply initialize_genesis.
  - intros head hb hs b t. apply add_without_prefix.
Qed.

(** At the concrete ledger with the prefix ["a"]: the digest of the row
    that [add] commits starts with ["a"]. *)
Lemma committed_digest_has_prefix_witness :
  exists c' σ' h,
    demo_add demo_hash (Some "a") = Returns (c', σ', Some h)
    /\ String.prefix "a" h = true.
Proof.
  set (r := demo_added demo_hash (Some "a")).
  assert (Hadd : demo_add demo_hash (Some "a")
                 = Returns (fst (fst r), snd (fst r), Some (default "" (snd r))))
    by (vm_compute; reflexivity).
  exists (fst (fst r)), (snd (fst r)), (default "" (snd r)).
  split; [exact Hadd|].
  exact (proj1 (proj1 (committed_digest_has_prefix demo_hash
                         (fst (demo_init demo_hash (Some "a"))) 7 30 demo_candidate
                         (demo_heap demo_hash (Some "a")))
                  "a" _ _ _ eq_refl Hadd)).
Defined.

(** C2 as stated fails on the genesis block: on a ledger with the default
    prefix ["dab"], the row that [initialize] seeds has a digest that does
    not start with ["dab"]. *)
Lemma genesis_digest_lacks_prefix :
  exists row,
    powHashPrefix (fst (demo_init demo_hash default_powHashPrefix)) = Some "dab"
    /\ _chain (fst (demo_init demo_hash default_powHashPrefix)) = [row]
    /\ row_i row = 0
    /\ String.prefix "dab" (row_hash row) = false.
Proof. eexists. vm_compute. repeat split. Qed.

(** ** Reloading the head from its row *)

Lemma string_length_app (s1 s2 : string) :
  String.length (s1 +:+ s2) = (String.length s1 + String.length s2)%nat.
Proof. induction s1 as [|a s1 IH]; simpl; [done | by rewrite IH]. Qed.

Lemma escape_char_length c : (1 <= String.length (escape_char c))%nat.
Proof. unfold escape_char. repeat case_match; simpl; lia. Qed.

Lemma escape_length s : (String.length s <= String.length (escape s))%nat.
Proof.
  induction s as [|a s IH]; simpl; [done|].
  rewrite string_length_app. pose proof (escape_char_length a). lia.
Qed.

Lemma quote_length s : (String.length s + 2 <= String.length (quote s))%nat.
Proof.
  unfold quote. simpl. rewrite string_length_app. simpl.
  pose proof (escape_length s). lia.
Qed.

(** The text that [JSON.stringify] makes of a payload is never that payload:
    a string comes out longer by its quotes, and the other values are not
    strings. *)
Lemma stringify_changes_payload d : VStr (JSON_stringify d) <> d.
Proof.
  destruct d as [| | |s| |]; try discriminate.
  simpl. intros [= E]. pose proof (quote_length s) as Hlen.
  rewrite E in Hlen. lia.
Qed.

(** What [initialize] makes the head when the table has rows: a new block
    whose payload is the text of the [data] column. *)
Lemma initialize_reload (H : val -> string) c now σ row :
  top_by row_i (_chain c) = Some row ->
  exists hb,
    initialize H c true now σ
    = (set_currentBlock c (fresh (dom σ)), <[fresh (dom σ) := hb]> σ, true)
    /\ data hb = VStr (row_data row)
    /\ hash H hb
       = H (VObj (content_fields (row_i row) (row_timestamp row)
                    (LStr (row_previousHash row)) (VStr (row_data row))
                    (row_nonce row))).
Proof.
  intros Htop. unfold initialize. rewrite Htop.
  eexists. split; [reflexivity|]. split; reflexivity.
Qed.

(** C1, as the code has it.  After a successful [add] whose row is the
    highest-indexed one, the row stores the digest of the record with the
    payload itself, while [initialize] rebuilds the head from the row with
    the JSON text of the payload in its place, and hashes that record; the
    two records differ for every payload. *)
Theorem reload_hashes_serialised_payload (H : val -> string) (c : Chain)
    (rnd : Z) (fuel : nat) (l : loc) (σ : gmap loc Block)
    (c1 : Chain) (σ1 : gmap loc Block) (h : string) (now : Z) :
  add H c rnd fuel l σ = Returns (c1, σ1, Some h) ->
  top_by row_i (_chain c1) = last (_chain c1) ->
  exists b s row hb,
    σ1 !! l = Some b /\ seal b = Some s
    /\ last (_chain c1) = Some row /\ row_hash row = h
    /\ h = H (VObj (content_fields (index s) (timestamp b) (previousHash s)
                                   (data b) (nonce s)))
    /\ initialize H c1 true now σ1
       = (set_currentBlock c1 (fresh (dom σ1)), <[fresh (dom σ1) := hb]> σ1, true)
    /\ hash H hb
       = H (VObj (content_fields (index s) (timestamp b) (previousHash s)
                                 (VStr (JSON_stringify (data b))) (nonce s)))
    /\ VStr (JSON_stringify (data b)) <> data b.
Proof.
  intros (hb & hs & b & k & b2 & s2 & _ & _ & -> & Hs2 & -> & Hh & Hst & _ & Hp & Hrec)
         %add_success Htop.
  simpl in Htop. rewrite last_snoc in Htop.
  destruct (initialize_reload H
              (set_currentBlock (set_chain c (_chain c ++ [row_of_block H b2 s2])) l)
              now (<[l:=b2]> σ) _ Htop) as (hb' & Hinit & _ & Hhash).
  exists b2, s2, (row_of_block H b2 s2), hb'. simpl.
  split; [apply lookup_insert_eq|]. split; [done|]. split; [apply last_snoc|].
  split; [done|]. split; [done|]. split; [done|].
  split; [|apply stringify_changes_payload].
  rewrite Hhash. simpl. by rewrite Hp.
Qed.

(** At the concrete ledger with the prefix ["a"]: the head that
    [initialize] reloads after the [add] has a digest other than the one in
    its row, and one that does not even start with the prefix. *)
Lemma reload_hashes_serialised_payload_witness :
  exists c1 σ1 h row hb,
    demo_add demo_hash (Some "a") = Returns (c1, σ1, Some h)
    /\ last (_chain c1) = Some row /\ row_hash row = h
    /\ initialize demo_hash c1 true 3000 σ1
       = (set_currentBlock c1 (fresh (dom σ1)), <[fresh (dom σ1) := hb]> σ1, true)
    /\ String.eqb (hash demo_hash hb) (row_hash row) = false
    /\ String.prefix "a" (hash demo_hash hb) = false.
Proof.
  set (r := demo_added demo_hash (Some "a")).
  assert (Hadd : demo_add demo_hash (Some "a")
                 = Returns (fst (fst r), snd (fst r), Some (default "" (snd r))))
    by (vm_compute; reflexivity).
  destruct (reload_hashes_serialised_payload demo_hash _ 7 30%nat demo_candidate _
              (fst (fst r)) (snd (fst r)) (default "" (snd r)) 3000 Hadd)
    as (b & s & row & hb & Hb & Hs & Hlast & Hrow & _ & Hinit & Hhash & _);
    [vm_compute; reflexivity|].
  exists (fst (fst r)), (snd (fst r)), (default "" (snd r)), row, hb.
  split; [exact Hadd|]. split; [exact Hlast|]. split; [exact Hrow|].
  split; [exact Hinit|].
  rewrite Hhash, Hrow.
  vm_compute in Hb. injection Hb as <-.
  vm_compute in Hs. injection Hs as <-.
  split; vm_compute; reflexivity.
Defined.

(** ** Anchors *)

Section Tables.

Context {R : Type} (key : R -> Z).

Lemma top_by_snoc (t : list R) (r : R) :
  top_by key (t ++ [r])
  = match top_by key t with
    | None => Some r
    | Some m => if key m <? key r then Some r else Some m
    end.
Proof. unfold top_by. by rewrite fold_left_app. Qed.

(** The row selected is a row of the table with the greatest key. *)
Lemma top_by_max (t : list R) (m : R) :
  top_by key t = Some m -> In m t /\ forall r, In r t -> key r <= key m.
Proof.
  revert m. induction t as [|x t IH] using rev_ind; intros m; [discriminate|].
  rewrite top_by_snoc. destruct (top_by key t) as [m'|] eqn:Ht.
  - destruct (IH m' eq_refl) as [Hin Hmax].
    destruct (key m' <? key x) eqn:E; intros [= <-].
    + apply Z.ltb_lt in E. split; [apply in_or_app; right; by left|].
      intros r [Hr|[<-|[]]]%in_app_or; [|lia]. specialize (Hmax r Hr). lia.
    + apply Z.ltb_ge in E. split; [apply in_or_app; by left|].
      intros r [Hr|[<-|[]]]%in_app_or; [by apply Hmax | lia].
  - intros [= <-]. destruct t as [|y t] using rev_ind.
    + split; [by left|]. intros r [<-|[]]. lia.
    + rewrite top_by_snoc in Ht. by repeat case_match.
Qed.

Lemma top_by_None (t : list R) : top_by key t = None -> t = [].
Proof.
  destruct t as [|x t] using rev_ind; [done|].
  rewrite top_by_snoc. by repeat case_match.
Qed.

(** A row above all the others becomes the one selected. *)
Lemma top_by_snoc_above (t : list R) (r : R) :
  (forall x, In x t -> key x < key r) -> top_by key (t ++ [r]) = Some r.
Proof.
  intros Habove. rewrite top_by_snoc.
  destruct (top_by key t) as [m|] eqn:Ht; [|done].
  apply top_by_max in Ht as [Hin _]. specialize (Habove m Hin).
  by apply Z.ltb_lt in Habove as ->.
Qed.

End Tables.

Lemma in_insert_by_i x r l : In x (insert_by_i r l) <-> x = r \/ In x l.
Proof.
  induction l as [|y l IH]; simpl; [intuition congruence|].
  destruct (row_i r <=? row_i y); simpl; [intuition congruence|].
  rewrite IH. intuition congruence.
Qed.

Lemma in_order_by_i x t : In x (order_by_i t) <-> In x t.
Proof.
  induction t as [|y t IH]; simpl; [done|].
  rewrite in_insert_by_i, IH. intuition congruence.
Qed.

(** The rows of the range query are the rows of the table with
    [lo < i <= hi]. *)
Lemma in_select_range lo hi t x :
  In x (select_range lo hi t) <-> In x t /\ lo < row_i x <= hi.
Proof.
  unfold select_range. rewrite in_order_by_i, filter_In.
  rewrite andb_true_iff, Z.ltb_lt, Z.leb_le. tauto.
Qed.

Lemma select_range_empty lo hi t : hi <= lo -> select_range lo hi t = [].
Proof.
  intros Hle. destruct (select_range lo hi t) as [|x l] eqn:E; [done|].
  assert (Hin : In x (select_range lo hi t)) by (rewrite E; by left).
  apply in_select_range in Hin. lia.
Qed.

Section Anchor.

Variable H : val -> string.

(** The shape of every call of [anchor] on a chain with a sealed head. *)
Lemma anchor_cases c σ head hb hs :
  currentBlock c = Some head -> σ !! head = Some hb -> seal hb = Some hs ->
  let rows := select_range (previous_anchor_index c) (index hs) (_chain c) in
  (rows = [] /\ anchor H c σ = Returns (c, false))
  \/ (rows <> []
      /\ anchor_insert (new_anchor H c (index hs)) (_anchor c) = None
      /\ anchor H c σ = Returns (c, false))
  \/ (rows <> []
      /\ anchor_insert (new_anchor H c (index hs)) (_anchor c)
         = Some (_anchor c ++ [new_anchor H c (index hs)])
      /\ anchor H c σ
         = Returns (set_anchor c (_anchor c ++ [new_anchor H c (index hs)]), true)).
Proof.
  intros Hc Hhb Hhs rows. unfold anchor. rewrite Hc, Hhb, Hhs.
  fold (previous_anchor_index c). fold rows.
  destruct rows as [|x rows'] eqn:E; [by left|]. right.
  replace (sql_text match top_by anchor_i (_anchor c) with
                    | Some r => LStr (anchor_hash r)
                    | None => LNum (-1)
                    end) with (previous_anchor_hash c)
    by (unfold previous_anchor_hash; by destruct (top_by anchor_i (_anchor c))).
  fold rows. replace (x :: rows') with rows by done.
  change (mkAnchorRow (index hs) (H (hash_rows rows)) (previous_anchor_hash c))
    with (new_anchor H c (index hs)).
  simpl. unfold anchor_insert.
  destruct (existsb _ (_anchor c)); [left | right]; by rewrite E.
Qed.

(** Every anchor in the table has an index at most the one [anchor] reads. *)
Lemma anchors_below_previous c a :
  In a (_anchor c) -> anchor_i a <= previous_anchor_index c.
Proof.
  intros Hin. unfold previous_anchor_index.
  destruct (top_by anchor_i (_anchor c)) as [m|] eqn:Ht.
  - apply top_by_max in Ht as [_ Hmax]. by apply Hmax.
  - apply top_by_None in Ht. rewrite Ht in Hin. destruct Hin.
Qed.

(** A non-empty range puts the head above the latest anchor. *)
Lemma range_nonempty_above lo hi t : select_range lo hi t <> [] -> lo < hi.
Proof.
  intros Hne. destruct (Z.lt_ge_cases lo hi) as [|Hle]; [done|].
  by rewrite select_range_empty in Hne.
Qed.

(** After a successful call the new row is the latest anchor. *)
Lemma anchor_becomes_previous c i :
  select_range (previous_anchor_index c) i (_chain c) <> [] ->
  top_by anchor_i (_anchor c ++ [new_anchor H c i]) = Some (new_anchor H c i).
Proof.
  intros Hne%range_nonempty_above. apply top_by_snoc_above.
  intros a Ha%anchors_below_previous. simpl. lia.
Qed.


End Anchor.




(** A successful call of [anchor] appends one row, made from the head's
    index, the digest of the scanned rows and the latest anchor's digest. *)
Lemma anchor_success (H : val -> string) c σ c1 :
  anchor H c σ = Returns (c1, true) ->
  exists head hb hs,
    currentBlock c = Some head /\ σ !! head = Some hb /\ seal hb = Some hs
    /\ select_range (previous_anchor_index c) (index hs) (_chain c) <> []
    /\ c1 = set_anchor c (_anchor c ++ [new_anchor H c (index hs)]).
Proof.
  intros Hret.
  destruct (currentBlock c) as [head|] eqn:Hc;
    [|unfold anchor in Hret; by rewrite Hc in Hret].
  destruct (σ !! head) as [hb|] eqn:Hhb;
    [|unfold anchor in Hret; by rewrite Hc, Hhb in Hret].
  destruct (seal hb) as [hs|] eqn:Hhs;
    [|unfold anchor in Hret; by rewrite Hc, Hhb, Hhs in Hret].
  exists head, hb, hs. repeat (split; [done|]).
  destruct (anchor_cases H c σ head hb hs Hc Hhb Hhs)
    as [(_ & Hret')|[(_ & _ & Hret')|(Hrows & _ & Hret')]];
    rewrite Hret' in Hret; [discriminate | discriminate |].
  by injection Hret as <-.
Qed.

(** C7.  Two successful calls of [anchor] with nothing written to the anchor
    table in between (calls of [add] never write to it): each appends one
    anchor; the first one's previousHash is the digest of the anchor that
    was the latest before it, or the stored form of [-1] on an empty table;
    the second one's previousHash is the first one's digest; the first one
    covers the rows with index from the earlier anchor's index plus one (from
    1 on an empty table) up to its own index, the second one the rows from
    the first one's index plus one up to its own, which is greater. *)
Theorem anchors_chain_and_abut (H : val -> string)
    (c c1 c2 c3 : Chain) (σ σ2 : gmap loc Block) :
  anchor H c σ = Returns (c1, true) ->
  _anchor c2 = _anchor c1 ->
  anchor H c2 σ2 = Returns (c3, true) ->
  exists a1 a2,
    _anchor c1 = _anchor c ++ [a1] /\ _anchor c3 = _anchor c1 ++ [a2]
    /\ anchor_previousHash a1 = previous_anchor_hash c
    /\ (_anchor c = [] ->
        anchor_previousHash a1 = "-1" /\ previous_anchor_index c + 1 = 1)
    /\ anchor_previousHash a2 = anchor_hash a1
    /\ anchor_hash a1
       = H (hash_rows (select_range (previous_anchor_index c) (anchor_i a1) (_chain c)))
    /\ anchor_hash a2
       = H (hash_rows (select_range (anchor_i a1) (anchor_i a2) (_chain c2)))
    /\ previous_anchor_index c < anchor_i a1 < anchor_i a2
    /\ (forall x, In x (select_range (previous_anchor_index c) (anchor_i a1) (_chain c))
                  <-> In x (_chain c)
                      /\ previous_anchor_index c + 1 <= row_i x <= anchor_i a1)
    /\ (forall x, In x (select_range (anchor_i a1) (anchor_i a2) (_chain c2))
                  <-> In x (_chain c2)
                      /\ anchor_i a1 + 1 <= row_i x <= anchor_i a2).
Proof.
  intros (head & hb & hs & Hc & Hhb & Hhs & Hrows & ->)%anchor_success Hsame
         (head2 & hb2 & hs2 & Hc2 & Hhb2 & Hhs2 & Hrows2 & ->)%anchor_success.
  simpl in Hsame.
  assert (Hprev2 : previous_anchor_index c2 = index hs).
  { unfold previous_anchor_index. rewrite Hsame.
    by rewrite (anchor_becomes_previous H c (index hs) Hrows). }
  assert (Hhash2 : previous_anchor_hash c2 = anchor_hash (new_anchor H c (index hs))).
  { unfold previous_anchor_hash. rewrite Hsame.
    by rewrite (anchor_becomes_previous H c (index hs) Hrows). }
  exists (new_anchor H c (index hs)), (new_anchor H c2 (index hs2)). simpl.
  rewrite Hprev2 in *.
  split; [done|]. split; [by rewrite Hsame|]. split; [done|].
  split.
  { intros Hempty. unfold previous_anchor_hash, previous_anchor_index.
    by rewrite Hempty. }
  split; [done|]. split; [done|]. split; [done|].
  split.
  { apply range_nonempty_above in Hrows, Hrows2. lia. }
  split; intros x; rewrite in_select_range; intuition lia.
Qed.

(** At the concrete ledger: a block is added and anchored, a second block
    is added and anchored; the two anchors are at indices 1 and 2, the first
    holds ["-1"] and the second the digest of the first. *)
Lemma anchors_chain_and_abut_witness :
  exists c4 a1 a2,
    anchor demo_hash (demo_added_again demo_hash).1 (demo_added_again demo_hash).2
    = Returns (c4, true)
    /\ _anchor c4 = [a1; a2]
    /\ anchor_i a1 = 1 /\ anchor_i a2 = 2
    /\ anchor_previousHash a1 = "-1"
    /\ anchor_previousHash a2 = anchor_hash a1.
Proof.
  set (c := (demo_added demo_hash None).1.1).
  set (σ := (demo_added demo_hash None).1.2).
  set (c1 := (demo_anchored demo_hash).1).
  set (c2 := (demo_added_again demo_hash).1).
  set (σ2 := (demo_added_again demo_hash).2).
  set (c3 := (returned (c2, false) (anchor demo_hash c2 σ2)).1).
  assert (H1 : anchor demo_hash c σ = Returns (c1, true)) by (vm_compute; reflexivity).
  assert (H2 : _anchor c2 = _anchor c1) by (vm_compute; reflexivity).
  assert (H3 : anchor demo_hash c2 σ2 = Returns (c3, true)) by (vm_compute; reflexivity).
  destruct (anchors_chain_and_abut demo_hash c c1 c2 c3 σ σ2 H1 H2 H3)
    as (a1 & a2 & Ht1 & Ht3 & _ & Hfirst & Hlink & _).
  exists c3, a1, a2. split; [exact H3|].
  assert (Hempty : _anchor c = []) by (vm_compute; reflexivity).
  rewrite Ht1, Hempty in Ht3. simpl in Ht3.
  split; [exact Ht3|].
  destruct (Hfirst Hempty) as [Hp _].
  vm_compute in Ht3.
  injection Ht3 as <- <-.
  repeat split; try reflexivity; done.
Defined.

(** ** Invariants of a ledger grown from a fresh database *)

Lemma last_cons_default {A} (a d : A) (t : list A) :
  List.last (a :: t) d = List.last t a.
Proof.
  revert a d. induction t as [|b t IH]; intros a d; [done|].
  change (List.last (a :: b :: t) d) with (List.last (b :: t) d).
  by rewrite !IH.
Qed.

Lemma linked_from_app p t1 t2 :
  linked_from p (t1 ++ t2)
  = linked_from p t1 && linked_from (List.last t1 p) t2.
Proof.
  revert p. induction t1 as [|r t1 IH]; intros p; [done|].
  change (linked_from p ((r :: t1) ++ t2))
    with (links_to p r && linked_from r (t1 ++ t2)).
  rewrite IH. change (linked_from p (r :: t1)) with (links_to p r && linked_from r t1).
  rewrite <- andb_assoc. do 2 f_equal. by rewrite last_cons_default.
Qed.

Lemma linked_from_bounds p t :
  linked_from p t = true ->
  row_i (List.last t p) = row_i p + Z.of_nat (length t)
  /\ forall x, In x t -> row_i p < row_i x <= row_i (List.last t p).
Proof.
  revert p. induction t as [|r t IH]; intros p Hl.
  - simpl. split; [lia | intros x []].
  - simpl in Hl. apply andb_true_iff in Hl as [Hlink Hl].
    apply andb_true_iff in Hlink as [Hi%Z.eqb_eq _].
    destruct (IH r Hl) as [Hlast Hb].
    assert (Hlast' : List.last (r :: t) p = List.last t r) by apply last_cons_default.
    rewrite Hlast'. split; [simpl length; lia|].
    intros x [<-|Hx]; [lia|]. specialize (Hb x Hx). lia.
Qed.

Lemma stdpp_last_last {A} (t : list A) (d x : A) :
  last t = Some x -> List.last t d = x.
Proof.
  revert d. induction t as [|a t IH]; intros d; [discriminate|].
  destruct t as [|b t]; [by intros [= ->]|]. intros Hl.
  change (List.last (a :: b :: t) d) with (List.last (b :: t) d). by apply IH.
Qed.

(** In a hash-chained block table the rows carry the indices 0, 1, 2, ... in
    order, so the last row is the one of greatest index and its index is the
    number of rows minus one. *)
Lemma chain_table_ok_last t r :
  chain_table_ok t = true -> last t = Some r ->
  row_i r = Z.of_nat (length t) - 1
  /\ (forall x, In x t -> 0 <= row_i x <= row_i r)
  /\ top_by row_i t = Some r.
Proof.
  destruct t as [|g t]; [discriminate|]. simpl. intros Hok Hlast.
  apply andb_true_iff in Hok as [Hg Hl].
  assert (Hg0 : row_i g = 0).
  { unfold is_genesis_row in Hg. repeat (apply andb_true_iff in Hg as [Hg _]).
    by apply Z.eqb_eq. }
  destruct (linked_from_bounds g t Hl) as [Hidx Hb].
  assert (Hr : List.last t g = r).
  { rewrite <- (last_cons_default g g t). by apply stdpp_last_last. }
  rewrite Hr in *.
  split; [lia|]. split.
  { intros x [<-|Hx]; [lia|]. specialize (Hb x Hx). lia. }
  destruct t as [|x t] using rev_ind.
  - simpl in Hr. by subst.
  - clear IHt. rewrite List.last_last in Hr. subst x.
    rewrite app_comm_cons. apply top_by_snoc_above.
    rewrite linked_from_app in Hl. apply andb_true_iff in Hl as [Hl1 Hl2].
    simpl in Hl2. rewrite andb_true_r in Hl2.
    apply andb_true_iff in Hl2 as [Hi%Z.eqb_eq _].
    destruct (linked_from_bounds g t Hl1) as [Hlast1 Hb1].
    intros y [<-|Hy]; [lia|]. specialize (Hb1 y Hy). lia.
Qed.

Lemma chain_table_ok_snoc t r r' :
  chain_table_ok t = true -> last t = Some r -> links_to r r' = true ->
  chain_table_ok (t ++ [r']) = true.
Proof.
  destruct t as [|g t]; [discriminate|]. simpl. intros Hok Hlast Hlink.
  apply andb_true_iff in Hok as [Hg Hl]. rewrite Hg. simpl.
  rewrite linked_from_app, Hl. simpl. rewrite andb_true_r.
  replace (List.last t g) with r; [done|].
  rewrite <- (last_cons_default g g t). symmetry. by apply stdpp_last_last.
Qed.

Lemma anchors_from_app i h t1 t2 :
  anchors_from i h (t1 ++ t2)
  = anchors_from i h t1
    && anchors_from (List.last (List.map anchor_i t1) i)
                    (List.last (List.map anchor_hash t1) h) t2.
Proof.
  revert i h. induction t1 as [|a t1 IH]; intros i h; [done|].
  change (anchors_from i h ((a :: t1) ++ t2))
    with ((i <? anchor_i a) && String.eqb (anchor_previousHash a) h
          && anchors_from (anchor_i a) (anchor_hash a) (t1 ++ t2)).
  rewrite IH.
  change (anchors_from i h (a :: t1))
    with ((i <? anchor_i a) && String.eqb (anchor_previousHash a) h
          && anchors_from (anchor_i a) (anchor_hash a) t1).
  rewrite <- !andb_assoc. do 3 f_equal.
  change (List.map ?f (a :: t1)) with (f a :: List.map f t1).
  by rewrite !last_cons_default.
Qed.

Lemma anchors_from_bounds i h t :
  anchors_from i h t = true ->
  i <= List.last (List.map anchor_i t) i
  /\ forall x, In x t -> i < anchor_i x <= List.last (List.map anchor_i t) i.
Proof.
  revert i h. induction t as [|a t IH]; intros i h Hok.
  - simpl. split; [lia | intros x []].
  - simpl in Hok. apply andb_true_iff in Hok as [Hhd Hok].
    apply andb_true_iff in Hhd as [Hi%Z.ltb_lt _].
    destruct (IH _ _ Hok) as [Hle Hb].
    assert (Hlast : List.last (List.map anchor_i (a :: t)) i
                    = List.last (List.map anchor_i t) (anchor_i a))
      by apply last_cons_default.
    rewrite Hlast. split; [lia|].
    intros x [<-|Hx]; [lia|]. specialize (Hb x Hx). lia.
Qed.

(** In a chained anchor table the latest anchor is the last row: what
    [anchor] reads from the table are the index and the digest of the last
    row, or [0] and ["-1"]. *)
Lemma anchors_from_previous c :
  anchor_table_ok (_anchor c) = true ->
  previous_anchor_index c = List.last (List.map anchor_i (_anchor c)) 0
  /\ previous_anchor_hash c = List.last (List.map anchor_hash (_anchor c)) "-1".
Proof.
  unfold anchor_table_ok, previous_anchor_index, previous_anchor_hash.
  destruct (_anchor c) as [|a t] using rev_ind; [done|]. clear IHt.
  intros Hok. rewrite anchors_from_app in Hok. apply andb_true_iff in Hok as [Hok1 Hok2].
  simpl in Hok2. rewrite andb_true_r in Hok2.
  apply andb_true_iff in Hok2 as [Hi%Z.ltb_lt _].
  destruct (anchors_from_bounds _ _ _ Hok1) as [_ Hb].
  rewrite top_by_snoc_above.
  - rewrite !List.map_app. simpl. by rewrite !List.last_last.
  - intros x Hx. specialize (Hb x Hx). lia.
Qed.


Section Reachable.

Variable H : val -> string.

Lemma head_is_last_row_index c σ :
  head_is_last_row H c σ ->
  exists r, last (_chain c) = Some r /\ head_index c σ = Some (row_i r).
Proof.
  intros (head & hb & hs & r & Hc & Hhb & Hhs & Hlast & Hi & _).
  exists r. split; [done|]. unfold head_index. by rewrite Hc, Hhb, Hhs, Hi.
Qed.

Lemma ledger_inv_seed name prefix now σ0 c σ :
  initialize H (Chain_new name prefix [] []) true now σ0 = (c, σ, true) ->
  ledger_inv H c σ.
Proof.
  unfold initialize. simpl. unfold _addBlockToChain, chain_insert. simpl.
  intros [= <- <-]. split; [reflexivity|]. split.
  { eexists _, _, _, _. split; [reflexivity|]. split; [apply lookup_insert_eq|].
    split; [reflexivity|]. split; [reflexivity|]. by split. }
  split; [reflexivity|].
  exists 0. split; [|intros a []].
  unfold head_index. simpl. by rewrite lookup_insert_eq.
Qed.

Lemma ledger_inv_heap c σ σ' head :
  ledger_inv H c σ -> currentBlock c = Some head -> σ' !! head = σ !! head ->
  ledger_inv H c σ'.
Proof.
  intros (Ht & (head' & hb & hs & r & Hc & Hhb & Hhs & Hr) & Ha & hi & Hhi & Hb) Hc' Hsame.
  rewrite Hc in Hc'. injection Hc' as ->.
  split; [done|]. split.
  { exists head, hb, hs, r. by rewrite Hsame. }
  split; [done|]. exists hi. split; [|done].
  unfold head_index in *. by rewrite Hc, Hsame in *.
Qed.

Lemma ledger_inv_add c σ rnd fuel l c' σ' r :
  ledger_inv H c σ -> currentBlock c <> Some l ->
  add H c rnd fuel l σ = Returns (c', σ', r) ->
  ledger_inv H c' σ'.
Proof.
  intros (Ht & (head & hb & hs & row & Hc & Hhb & Hhs & Hlast & Hri & Hrh)
          & Ha & hi & Hhi & Hb) Hne Hadd.
  assert (Hl : l <> head) by congruence.
  assert (hi = index hs) as ->.
  { unfold head_index in Hhi. rewrite Hc, Hhb, Hhs in Hhi. congruence. }
  apply add_returns in Hadd
    as (head' & hb' & hs' & b & k & b2 & s2 & hb2 & Hc' & Hhb' & Hhs' & Hbl & Hb2
        & -> & Hs2 & Hhb2 & _ & _ & Hcases).
  rewrite Hc in Hc'. injection Hc' as <-.
  rewrite Hhb in Hhb'. injection Hhb' as <-.
  rewrite Hhs in Hhs'. injection Hhs' as <-.
  assert (Hkeep : ledger_inv H c (<[l:=b2]> σ)).
  { apply (ledger_inv_heap c σ _ head); [|done|by rewrite lookup_insert_ne].
    split; [done|]. split; [by exists head, hb, hs, row|]. split; [done|].
    by exists (index hs). }
  destruct Hcases as [(_ & _ & ->)|[(_ & _ & _ & ->)|(_ & _ & _ & ->)]]; [done|done|].
  destruct (attempts_fields H k (build H b (index hs + 1) (LStr (hash H hb)) rnd)
              _ eq_refl) as (s' & Hs' & Hi & Hp & _).
  rewrite <- Hb2, Hs2 in Hs'. injection Hs' as <-. simpl in Hi, Hp.
  split.
  { simpl. apply (chain_table_ok_snoc _ row); [done|done|].
    unfold links_to. simpl. rewrite Hi, Hp, Hri, Hrh. simpl.
    by rewrite Z.eqb_refl, String.eqb_refl. }
  split.
  { exists l, b2, s2, (row_of_block H b2 s2). simpl.
    split; [done|]. split; [apply lookup_insert_eq|]. split; [done|].
    split; [apply last_snoc|]. by split. }
  split; [done|].
  exists (index s2). split.
  { unfold head_index. simpl. by rewrite lookup_insert_eq, Hs2. }
  intros a Hin. specialize (Hb a Hin). lia.
Qed.

Lemma ledger_inv_anchor c σ c' r :
  ledger_inv H c σ -> anchor H c σ = Returns (c', r) -> ledger_inv H c' σ.
Proof.
  intros Hinv Hret.
  pose proof Hinv as (Ht & (head & hb & hs & row & Hc & Hhb & Hhs & Hlast & Hri & Hrh)
                      & Ha & hi & Hhi & Hb).
  assert (hi = index hs) as ->.
  { unfold head_index in Hhi. rewrite Hc, Hhb, Hhs in Hhi. congruence. }
  destruct (anchor_cases H c σ head hb hs Hc Hhb Hhs)
    as [(_ & Hret')|[(_ & _ & Hret')|(Hrows & _ & Hret')]];
    rewrite Hret' in Hret; injection Hret as <- <-; [done|done|].
  destruct (anchors_from_previous c Ha) as [Hpi Hph].
  pose proof (range_nonempty_above _ _ _ Hrows) as Hlt.
  destruct (anchors_from_bounds _ _ _ Ha) as [Hge _].
  split; [done|]. split; [by exists head, hb, hs, row|].
  split.
  { simpl. unfold anchor_table_ok. rewrite anchors_from_app.
    fold (anchor_table_ok (_anchor c)). rewrite Ha. simpl.
    rewrite <- Hpi, <- Hph, String.eqb_refl, !andb_true_r.
    by apply Z.ltb_lt. }
  exists (index hs). split; [exact Hhi|].
  simpl. intros a [Hin|[<-|[]]]%in_app_or; [by apply Hb|].
  simpl. lia.
Qed.

Lemma reachable_inv c σ : reachable H c σ -> ledger_inv H c σ.
Proof.
  induction 1 as [name prefix now σ0 c σ Hinit
                 |c σ σ' head _ IH Hc Hsame
                 |c σ rnd fuel l c' σ' r _ IH Hne Hadd
                 |c σ c' r _ IH Hret].
  - by apply (ledger_inv_seed name prefix now σ0).
  - by apply (ledger_inv_heap c σ σ' head).
  - by apply (ledger_inv_add c σ rnd fuel l c' σ' r).
  - by apply (ledger_inv_anchor c σ c' r).
Qed.

End Reachable.

(** X1.  In every state of a ledger grown from a fresh database, the block
    table is a hash chain: its first row is the genesis row, every later row
    has the index of the row before it plus one and that row's digest as its
    previousHash; and the head is a sealed block with the index and the
    (recomputed) digest of the last row. *)
Theorem reachable_block_table_chained (H : val -> string) (c : Chain)
    (σ : gmap loc Block) :
  reachable H c σ ->
  chain_table_ok (_chain c) = true /\ head_is_last_row H c σ.
Proof. intros (Ht & Hh & _)%reachable_inv. by split. Qed.

(** The ledger of the running example is such a state. *)
Lemma demo_reachable :
  reachable demo_hash (demo_added demo_hash None).1.1 (demo_added demo_hash None).1.2.
Proof.
  apply (reach_add demo_hash (demo_init demo_hash None).1 (demo_heap demo_hash None)
           7 30%nat demo_candidate _ _ (demo_added demo_hash None).2).
  - apply (reach_heap demo_hash _ (demo_init demo_hash None).2 _ 1%positive).
    + apply (reach_seed demo_hash "demo" None 1000 ∅). reflexivity.
    + reflexivity.
    + reflexivity.
  - vm_compute. discriminate.
  - vm_compute. reflexivity.
Qed.

Lemma reachable_block_table_chained_witness :
  chain_table_ok (_chain (demo_added demo_hash None).1.1) = true
  /\ List.map row_i (_chain (demo_added demo_hash None).1.1) = [0; 1].
Proof.
  split.
  - exact (proj1 (reachable_block_table_chained demo_hash _ _ demo_reachable)).
  - vm_compute. reflexivity.
Defined.

(** X2.  In every such state [length] is the number of rows of the block
    table. *)
Theorem length_counts_rows (H : val -> string) (c : Chain) (σ : gmap loc Block) :
  reachable H c σ ->
  length_of c σ = Some (Z.of_nat (length (_chain c))).
Proof.
  intros (Ht & (head & hb & hs & r & Hc & Hhb & Hhs & Hlast & Hri & _) & _)%reachable_inv.
  destruct (chain_table_ok_last _ r Ht Hlast) as (Hn & _).
  unfold length_of. rewrite Hc, Hhb, Hhs. f_equal. lia.
Qed.

Lemma length_counts_rows_witness :
  length_of (demo_added demo_hash None).1.1 (demo_added demo_hash None).1.2 = Some 2.
Proof. exact (length_counts_rows demo_hash _ _ demo_reachable). Defined.

(** X3.  Passing the head block itself to [add] never commits anything: once
    the search has returned, [add] returns [false] and both tables are as
    before, but the head has been re-sealed one index up, so [length] has
    grown by one although no block was added. *)
Theorem add_head_again (H : val -> string) (c : Chain) (rnd : Z) (fuel : nat)
    (σ σ2 : gmap loc Block) (head : loc) (hb : Block) (hs : Sealed) :
  currentBlock c = Some head -> σ !! head = Some hb -> seal hb = Some hs ->
  _proofOfWork H c fuel head
    (<[head := build H hb (index hs + 1) (LStr (hash H hb)) rnd]> σ) = Returns σ2 ->
  add H c rnd fuel head σ = Returns (c, σ2, None)
  /\ length_of c σ = Some (index hs + 1)
  /\ length_of c σ2 = Some (index hs + 2).
Proof.
  intros Hc Hhb Hhs Hpow.
  destruct (add_total H c rnd fuel head σ head hb hs hb σ2 Hc Hhb Hhs Hhb Hpow)
    as (c' & r & Hadd).
  pose proof Hadd as Hadd'.
  apply add_returns in Hadd'
    as (head' & hb' & hs' & b & k & b2 & s2 & hb2 & Hc' & Hhb' & Hhs' & Hb & Hb2
        & Hσ' & Hs2 & Hhb2 & _ & _ & Hcases).
  rewrite Hc in Hc'. injection Hc' as <-.
  rewrite Hhb in Hhb', Hb. injection Hhb' as <-. injection Hb as <-.
  rewrite Hhs in Hhs'. injection Hhs' as <-.
  rewrite Hσ', lookup_insert_eq in Hhb2. injection Hhb2 as <-.
  assert (Hinvalid : isValid H b2 b2 = false).
  { unfold isValid. rewrite Hs2.
    replace (index s2 + 1 =? index s2) with false; [done|].
    symmetry. apply Z.eqb_neq. lia. }
  destruct (attempts_fields H k (build H hb (index hs + 1) (LStr (hash H hb)) rnd)
              _ eq_refl) as (s' & Hs' & Hi & _).
  rewrite <- Hb2, Hs2 in Hs'. injection Hs' as <-. simpl in Hi.
  split.
  { destruct Hcases as [(_ & -> & ->)|[(Hv & _)|(Hv & _)]]; [done| |]; congruence. }
  unfold length_of. rewrite Hc, Hhb, Hhs, Hσ', lookup_insert_eq, Hs2, Hi.
  split; f_equal; lia.
Qed.

Lemma add_head_again_witness :
  let c := (demo_init demo_hash None).1 in
  let σ := (demo_init demo_hash None).2 in
  exists σ2,
    add demo_hash c 7 1 1%positive σ = Returns (c, σ2, None)
    /\ length_of c σ = Some 1 /\ length_of c σ2 = Some 2.
Proof.
  intros c σ.
  exists (<[1%positive := build demo_hash
                            (build demo_hash (Block_new (VStr "GENBLOCK") 1000) 0 (LNum (-1)) 0)
                            1 (LStr (hash demo_hash
                                       (build demo_hash (Block_new (VStr "GENBLOCK") 1000)
                                          0 (LNum (-1)) 0))) 7]> σ).
  apply (add_head_again demo_hash c 7 1%nat σ _ 1%positive
           (build demo_hash (Block_new (VStr "GENBLOCK") 1000) 0 (LNum (-1)) 0)
           (build_seal demo_hash (Block_new (VStr "GENBLOCK") 1000) 0 (LNum (-1)) 0));
    reflexivity.
Defined.

Section MoreAdd.

Variable H : val -> string.

(** In a hash-chained table with the head on its last row, the primary key
    of the next block is free: the insert is refused exactly when the digest
    is already there. *)
Lemma chain_insert_next t last_row r :
  chain_table_ok t = true -> last t = Some last_row ->
  row_i r = row_i last_row + 1 ->
  chain_insert r t
  = if existsb (fun r' => String.eqb (row_hash r') (row_hash r)) t
    then None else Some (t ++ [r]).
Proof.
  intros Hok Hlast Hi. unfold chain_insert.
  destruct (chain_table_ok_last t last_row Hok Hlast) as (_ & Hb & _).
  replace (existsb (fun r' => (row_i r' =? row_i r) || String.eqb (row_hash r') (row_hash r)) t)
    with (existsb (fun r' => String.eqb (row_hash r') (row_hash r)) t); [done|].
  clear Hok Hlast. induction t as [|x t IH]; [done|]. simpl.
  rewrite IH by (intros y Hy; apply Hb; by right).
  replace (row_i x =? row_i r) with false; [done|].
  symmetry. apply Z.eqb_neq. specialize (Hb x (or_introl eq_refl)). lia.
Qed.

End MoreAdd.

(** X4.  On a ledger grown from a fresh database, [add] of a block other
    than the head can only fail on a digest that is already in the table:
    once the search has returned the candidate [b2], [add] returns [b2]'s
    digest and appends its row if no row holds that digest, and returns
    [false] if one does.  The index itself is never taken. *)
Theorem add_fails_only_on_known_digest (H : val -> string) (c : Chain) (rnd : Z)
    (fuel : nat) (l : loc) (σ σ2 : gmap loc Block) (head : loc) (hb b : Block)
    (hs : Sealed) :
  reachable H c σ ->
  currentBlock c = Some head -> σ !! head = Some hb -> seal hb = Some hs ->
  σ !! l = Some b -> l <> head ->
  _proofOfWork H c fuel l
    (<[l := build H b (index hs + 1) (LStr (hash H hb)) rnd]> σ) = Returns σ2 ->
  exists b2 s2,
    σ2 !! l = Some b2 /\ seal b2 = Some s2
    /\ (existsb (fun r => String.eqb (row_hash r) (hash H b2)) (_chain c) = false ->
        add H c rnd fuel l σ
        = Returns (set_currentBlock (set_chain c (_chain c ++ [row_of_block H b2 s2])) l,
                   σ2, Some (hash H b2)))
    /\ (existsb (fun r => String.eqb (row_hash r) (hash H b2)) (_chain c) = true ->
        add H c rnd fuel l σ = Returns (c, σ2, None)).
Proof.
  intros (Ht & (head' & hb' & hs' & row & Hc' & Hhb' & Hhs' & Hlast & Hri & Hrh) & _)
         %reachable_inv Hc Hhb Hhs Hb Hne Hpow.
  rewrite Hc in Hc'. injection Hc' as <-.
  rewrite Hhb in Hhb'. injection Hhb' as <-.
  rewrite Hhs in Hhs'. injection Hhs' as <-.
  unfold add. rewrite Hc, Hhb, Hb, Hhs, Hpow.
  set (b1 := build H b (index hs + 1) (LStr (hash H hb)) rnd) in *.
  apply proofOfWork_block with (b := b1) in Hpow as (k & Hσ2 & _);
    [|apply lookup_insert_eq].
  rewrite insert_insert_eq in Hσ2.
  destruct (attempts_fields H k b1 _ eq_refl) as (s2 & Hs2 & Hi & _).
  assert (Hsh := attempts_stored_hash H k b (index hs + 1) (LStr (hash H hb)) rnd).
  fold b1 in Hsh.
  exists (attempts H k b1), s2.
  rewrite Hσ2, lookup_insert_eq, lookup_insert_ne, Hhb by done.
  split; [done|]. split; [done|].
  unfold b1. rewrite (isValid_after_build H k b hb hs rnd Hhs). fold b1.
  unfold _addBlockToChain. rewrite Hs2.
  rewrite (chain_insert_next _ row) by (simpl; try done; simpl in Hi; lia).
  simpl. split; intros ->; [by rewrite Hsh | done].
Qed.

Lemma add_fails_only_on_known_digest_witness :
  let c := (demo_added demo_hash None).1.1 in
  let σ := <[demo_second := Block_new (VStr "more") 4000]> (demo_added demo_hash None).1.2 in
  exists c' σ2 h, add demo_hash c 9 30 demo_second σ = Returns (c', σ2, Some h)
                  /\ List.map row_i (_chain c') = [0; 1; 2].
Proof.
  intros c σ.
  set (hb := default (Block_new VNull 0) (σ !! demo_candidate)).
  set (hs := default (mkSealed [] 0 (LNum 0) 0) (seal hb)).
  set (σ2 := <[demo_second := build demo_hash (Block_new (VStr "more") 4000)
                                (index hs + 1) (LStr (hash demo_hash hb)) 9]> σ).
  destruct (add_fails_only_on_known_digest demo_hash c 9 30%nat demo_second σ σ2
              demo_candidate hb (Block_new (VStr "more") 4000) hs)
    as (b2 & s2 & Hb2 & Hs2 & Hfresh & _).
  - apply (reach_heap demo_hash c (demo_added demo_hash None).1.2 σ demo_candidate);
      [exact demo_reachable | reflexivity | reflexivity].
  - reflexivity.
  - reflexivity.
  - reflexivity.
  - reflexivity.
  - discriminate.
  - reflexivity.
  - eexists _, σ2, _. split.
    + apply Hfresh. vm_compute in Hb2. injection Hb2 as <-. vm_compute. reflexivity.
    + vm_compute in Hs2. vm_compute in Hb2. injection Hb2 as <-. injection Hs2 as <-.
      vm_compute. reflexivity.
Defined.

(** ** Prefixes that always or never match *)

Section Prefixes.

Variable H : val -> string.

Lemma pow_loop_never p b s h :
  (forall v, String.prefix p (H v) = false) ->
  seal b = Some s -> obj_get "hash" (object s) = Some (VStr (H h)) ->
  forall fuel, pow_loop H p fuel b = Diverges.
Proof.
  intros Hnever Hs Hh fuel. revert b s h Hs Hh.
  induction fuel as [|fuel IH]; intros b s h Hs Hh; [done|].
  simpl. rewrite Hs, Hh, slice0_prefix, Hnever.
  eapply IH; [reflexivity|]. apply build_stored_hash.
Qed.

End Prefixes.

(** X5.  With the empty string as prefix the search accepts the first
    digest: on a sealed block whose stored digest is a string it returns at
    once and leaves the heap as it is, as it does with no prefix at all. *)
Theorem empty_prefix_accepts_at_once (H : val -> string) (c : Chain) (fuel : nat)
    (l : loc) (σ : gmap loc Block) (b : Block) (s : Sealed) (h : string) :
  powHashPrefix c = Some "" ->
  σ !! l = Some b -> seal b = Some s -> obj_get "hash" (object s) = Some (VStr h) ->
  _proofOfWork H c (S fuel) l σ = Returns σ.
Proof.
  intros Hp Hb Hs Hh. unfold _proofOfWork. rewrite Hp, Hb. simpl.
  rewrite Hs, Hh. unfold slice0. simpl.
  replace (String.substring 0 0 h) with "" by (by destruct h).
  simpl. by rewrite insert_id.
Qed.

Lemma empty_prefix_accepts_at_once_witness :
  let c := (demo_init demo_hash (Some "")).1 in
  let σ := (demo_init demo_hash (Some "")).2 in
  _proofOfWork demo_hash c 1 1%positive σ = Returns σ.
Proof.
  intros c σ.
  apply (empty_prefix_accepts_at_once demo_hash c O 1%positive σ
           (build demo_hash (Block_new (VStr "GENBLOCK") 1000) 0 (LNum (-1)) 0)
           (build_seal demo_hash (Block_new (VStr "GENBLOCK") 1000) 0 (LNum (-1)) 0)
           (hash demo_hash
              (build demo_hash (Block_new (VStr "GENBLOCK") 1000) 0 (LNum (-1)) 0)));
    reflexivity.
Defined.

(** X6.  With a prefix that no digest of the hasher starts with (one longer
    than the digests, or with a character they never contain), the search
    never ends: on a chain with a sealed head, [add] of any block exhausts
    every budget, and so never returns and never touches the table. *)
Theorem add_never_returns_on_impossible_prefix (H : val -> string) (c : Chain)
    (rnd : Z) (l : loc) (σ : gmap loc Block) (p : string)
    (head : loc) (hb b : Block) (hs : Sealed) :
  (forall v, String.prefix p (H v) = false) ->
  powHashPrefix c = Some p ->
  currentBlock c = Some head -> σ !! head = Some hb -> seal hb = Some hs ->
  σ !! l = Some b ->
  forall fuel, add H c rnd fuel l σ = Diverges.
Proof.
  intros Hnever Hp Hc Hhb Hhs Hb fuel.
  unfold add. rewrite Hc, Hhb, Hb, Hhs. unfold _proofOfWork.
  rewrite Hp, lookup_insert_eq.
  by rewrite (pow_loop_never H p (build H b (index hs + 1) (LStr (hash H hb)) rnd)
                (build_seal H b (index hs + 1) (LStr (hash H hb)) rnd) _ Hnever eq_refl
                (build_stored_hash H b (index hs + 1) (LStr (hash H hb)) rnd)).
Qed.

Lemma add_never_returns_on_impossible_prefix_witness :
  add const_hash (demo_init const_hash default_powHashPrefix).1 7 1000 demo_candidate
      (demo_heap const_hash default_powHashPrefix) = Diverges.
Proof.
  generalize 1000%nat.
  apply (add_never_returns_on_impossible_prefix const_hash _ 7 demo_candidate _ "dab"
           1%positive
           (build const_hash (Block_new (VStr "GENBLOCK") 1000) 0 (LNum (-1)) 0)
           (Block_new (VStr "pay") 2000)
           (build_seal const_hash (Block_new (VStr "GENBLOCK") 1000) 0 (LNum (-1)) 0));
    reflexivity.
Defined.

(** ** The anchor table of a grown ledger *)

(** The second ledger of the running example is such a state as well. *)
Lemma demo_reachable_again :
  reachable demo_hash (demo_added_again demo_hash).1 (demo_added_again demo_hash).2.
Proof.
  apply (reach_add demo_hash (demo_anchored demo_hash).1
           (<[demo_second := Block_new (VStr "more") 4000]> (demo_anchored demo_hash).2)
           9 30%nat demo_second _ _
           (returned ((demo_anchored demo_hash).1, ∅, None)
              (add demo_hash (demo_anchored demo_hash).1 9 30 demo_second
                 (<[demo_second := Block_new (VStr "more") 4000]>
                    (demo_anchored demo_hash).2))).2).
  - apply (reach_heap demo_hash _ (demo_anchored demo_hash).2 _ demo_candidate).
    + apply (reach_anchor demo_hash (demo_added demo_hash None).1.1 _ _ true).
      * exact demo_reachable.
      * vm_compute. reflexivity.
    + reflexivity.
    + reflexivity.
  - vm_compute. discriminate.
  - vm_compute. reflexivity.
Qed.

(** X7.  In every state of a ledger grown from a fresh database the anchor
    table is a hash chain with strictly increasing indices, the first anchor
    holding ["-1"]; every anchor's index lies between 1 and the head's; and
    a successful [anchor] hashes only rows of index 1 or more, so the genesis
    row is never part of an anchor. *)
Theorem reachable_anchor_table (H : val -> string) (c : Chain) (σ : gmap loc Block) :
  reachable H c σ ->
  anchor_table_ok (_anchor c) = true
  /\ (exists hi, head_index c σ = Some hi
                /\ forall a, In a (_anchor c) -> 1 <= anchor_i a <= hi)
  /\ forall c', anchor H c σ = Returns (c', true) ->
       exists a rows,
         _anchor c' = _anchor c ++ [a]
         /\ rows = select_range (previous_anchor_index c) (anchor_i a) (_chain c)
         /\ anchor_hash a = H (hash_rows rows)
         /\ rows <> []
         /\ forall x, In x rows -> 1 <= row_i x <= anchor_i a.
Proof.
  intros (_ & _ & Ha & Hb)%reachable_inv. split; [done|]. split; [done|].
  intros c' (head & hb & hs & Hc & Hhb & Hhs & Hrows & ->)%anchor_success.
  exists (new_anchor H c (index hs)), (select_range (previous_anchor_index c) (index hs) (_chain c)).
  simpl. repeat (split; [done|]).
  intros x [_ Hx]%in_select_range.
  destruct (anchors_from_previous c Ha) as [Hpi _].
  destruct (anchors_from_bounds _ _ _ Ha) as [Hge _]. lia.
Qed.

Lemma reachable_anchor_table_witness :
  anchor_table_ok (_anchor (demo_added_again demo_hash).1) = true
  /\ List.map anchor_i (_anchor (demo_added_again demo_hash).1) = [1].
Proof.
  split.
  - exact (proj1 (reachable_anchor_table demo_hash _ _ demo_reachable_again)).
  - vm_compute. reflexivity.
Defined.

Lemma existsb_anchor_key_free (t : list AnchorRow) (i bound : Z) (h : string) :
  (forall y, In y t -> anchor_i y <= bound) -> bound < i ->
  existsb (fun r' => (anchor_i r' =? i) || String.eqb (anchor_hash r') h) t
  = existsb (fun r => String.eqb (anchor_hash r) h) t.
Proof.
  intros Hbelow Hlt. induction t as [|x t IH]; [done|]. simpl.
  rewrite IH by (intros y Hy; apply Hbelow; by right).
  replace (anchor_i x =? i) with false; [done|].
  symmetry. apply Z.eqb_neq. specialize (Hbelow x (or_introl eq_refl)). lia.
Qed.

(** X8.  On a chain with a sealed head and a non-empty scanned range,
    [anchor] succeeds exactly when no anchor of the table already has the
    digest of the scanned rows: the index of the new anchor is never taken,
    so a refused insert is always a repeated digest. *)
Theorem anchor_fails_only_on_known_digest (H : val -> string) (c : Chain)
    (σ : gmap loc Block) (head : loc) (hb : Block) (hs : Sealed) :
  currentBlock c = Some head -> σ !! head = Some hb -> seal hb = Some hs ->
  select_range (previous_anchor_index c) (index hs) (_chain c) <> [] ->
  let a := new_anchor H c (index hs) in
  (existsb (fun r => String.eqb (anchor_hash r) (anchor_hash a)) (_anchor c) = false ->
   anchor H c σ = Returns (set_anchor c (_anchor c ++ [a]), true))
  /\ (existsb (fun r => String.eqb (anchor_hash r) (anchor_hash a)) (_anchor c) = true ->
      anchor H c σ = Returns (c, false)).
Proof.
  intros Hc Hhb Hhs Hrows a.
  assert (Hex : existsb (fun r' => (anchor_i r' =? anchor_i a)
                           || String.eqb (anchor_hash r') (anchor_hash a)) (_anchor c)
                = existsb (fun r => String.eqb (anchor_hash r) (anchor_hash a)) (_anchor c)).
  { apply (existsb_anchor_key_free _ _ (previous_anchor_index c)).
    - apply anchors_below_previous.
    - by apply range_nonempty_above in Hrows. }
  destruct (anchor_cases H c σ head hb hs Hc Hhb Hhs)
    as [(Hempty & _)|[(_ & Hins & Hret)|(_ & Hins & Hret)]]; [done| |];
    fold a in Hins, Hret; unfold anchor_insert in Hins; rewrite Hex in Hins;
    clear Hex;
    destruct (existsb (fun r => String.eqb (anchor_hash r) (anchor_hash a)) (_anchor c));
    try discriminate; (split; intros E; [done || discriminate | done || discriminate]).
Qed.

Lemma anchor_fails_only_on_known_digest_witness :
  exists c',
    anchor demo_hash (demo_added demo_hash None).1.1 (demo_added demo_hash None).1.2
    = Returns (c', true)
    /\ List.map anchor_i (_anchor c') = [1].
Proof.
  set (c := (demo_added demo_hash None).1.1).
  set (σ := (demo_added demo_hash None).1.2).
  set (hb := default (Block_new VNull 0) (σ !! demo_candidate)).
  set (hs := default (mkSealed [] 0 (LNum 0) 0) (seal hb)).
  eexists. split.
  - apply (anchor_fails_only_on_known_digest demo_hash c σ demo_candidate hb hs);
      try reflexivity. vm_compute. discriminate.
  - vm_compute. reflexivity.
Defined.

(** ** Restarting and not seeding *)

(** X9.  Calling [initialize] again on a ledger grown from a fresh database
    seeds no second genesis block and writes nothing: both tables are as
    before, every block of the heap is as before, and the head becomes a new
    block with the index of the old head, so [length] is unchanged. *)
Theorem restart_keeps_tables_and_length (H : val -> string) (c : Chain)
    (σ : gmap loc Block) (now : Z) :
  reachable H c σ ->
  exists hb',
    initialize H c true now σ
    = (set_currentBlock c (fresh (dom σ)), <[fresh (dom σ) := hb']> σ, true)
    /\ σ !! fresh (dom σ) = None
    /\ length_of (set_currentBlock c (fresh (dom σ))) (<[fresh (dom σ) := hb']> σ)
       = length_of c σ
    /\ _chain (set_currentBlock c (fresh (dom σ))) = _chain c
    /\ _anchor (set_currentBlock c (fresh (dom σ))) = _anchor c.
Proof.
  intros (Ht & (head & hb & hs & r & Hc & Hhb & Hhs & Hlast & Hri & _) & _)%reachable_inv.
  destruct (chain_table_ok_last _ r Ht Hlast) as (_ & _ & Htop).
  unfold initialize. rewrite Htop.
  eexists. split; [reflexivity|].
  split; [apply not_elem_of_dom, is_fresh|].
  split; [|done].
  unfold length_of. simpl. rewrite lookup_insert_eq, Hc, Hhb, Hhs. simpl.
  by rewrite Hri.
Qed.

Lemma restart_keeps_tables_and_length_witness :
  let c := (demo_added demo_hash None).1.1 in
  let σ := (demo_added demo_hash None).1.2 in
  length_of (initialize demo_hash c true 3000 σ).1.1 (initialize demo_hash c true 3000 σ).1.2
  = Some 2
  /\ _chain (initialize demo_hash c true 3000 σ).1.1 = _chain c.
Proof.
  intros c σ.
  destruct (restart_keeps_tables_and_length demo_hash c σ 3000 demo_reachable)
    as (hb' & -> & _ & Hlen & Hchain & _).
  simpl. split; [|exact Hchain].
  rewrite Hlen. reflexivity.
Defined.

(** X10.  [initialize (false)] opens the tables and does nothing else: on a
    chain just constructed the head stays undefined, and then [add] and
    [anchor] throw instead of returning [false], and [length] has no value. *)
Theorem unseeded_chain_throws (H : val -> string) (name : string)
    (prefix : option string) (chain_db : list ChainRow) (anchor_db : list AnchorRow)
    (now rnd : Z) (fuel : nat) (l : loc) (σ : gmap loc Block) :
  let c := Chain_new name prefix chain_db anchor_db in
  initialize H c false now σ = (c, σ, true)
  /\ add H c rnd fuel l σ = Throws
  /\ anchor H c σ = Throws
  /\ length_of c σ = None.
Proof. by repeat split. Qed.

Import P2P.

(** ** Buffers *)

Lemma byte_of_N_to_N n : Byte.to_N (byte_of_N n) = (n mod 256)%N.
Proof.
  unfold byte_of_N. destruct (Byte.of_N (n mod 256)) as [y|] eqn:E.
  - simpl. by apply Byte.to_of_N.
  - apply Byte.of_N_None_iff in E.
    pose proof (N.mod_upper_bound n 256). lia.
Qed.

Lemma base256_digits (v : N) :
  (v < 4294967296)%N ->
  (v mod 256 + 256 * ((v / 256) mod 256
                      + 256 * ((v / 65536) mod 256 + 256 * ((v / 16777216) mod 256))))%N
  = v.
Proof.
  intros Hv.
  change 65536%N with (256 * 256)%N. change 16777216%N with (256 * 256 * 256)%N.
  rewrite <- !N.Div0.div_div.
  pose proof (N.div_mod v 256 ltac:(lia)) as H0.
  pose proof (N.div_mod (v / 256) 256 ltac:(lia)) as H1.
  pose proof (N.div_mod (v / 256 / 256) 256 ltac:(lia)) as H2.
  pose proof (N.div_mod (v / 256 / 256 / 256) 256 ltac:(lia)) as H3.
  pose proof (N.mod_upper_bound v 256 ltac:(lia)).
  pose proof (N.mod_upper_bound (v / 256) 256 ltac:(lia)).
  pose proof (N.mod_upper_bound (v / 256 / 256) 256 ltac:(lia)).
  pose proof (N.mod_upper_bound (v / 256 / 256 / 256) 256 ltac:(lia)).
  generalize dependent (v mod 256)%N. generalize dependent ((v / 256) mod 256)%N.
  generalize dependent ((v / 256 / 256) mod 256)%N.
  generalize dependent ((v / 256 / 256 / 256) mod 256)%N.
  generalize dependent (v / 256 / 256 / 256 / 256)%N.
  generalize dependent (v / 256 / 256 / 256)%N.
  generalize dependent (v / 256 / 256)%N. generalize dependent (v / 256)%N.
  intros. lia.
Qed.

(** Reading back the four bytes of a 32-bit value. *)
Lemma readUInt32LE_bytes32LE (v : N) (rest : buffer) :
  (v < 4294967296)%N -> readUInt32LE (bytes32LE v ++ rest) 0 = Some v.
Proof.
  intros Hv. unfold readUInt32LE, bytes32LE. simpl.
  rewrite !byte_of_N_to_N. f_equal. by apply base256_digits.
Qed.

Lemma readUInt32LE_app_r (pre rest : buffer) (off : N) :
  readUInt32LE (pre ++ rest) (N.of_nat (length pre) + off) = readUInt32LE rest off.
Proof.
  unfold readUInt32LE.
  replace (N.to_nat (N.of_nat (length pre) + off)) with (length pre + N.to_nat off)%nat by lia.
  by rewrite drop_app_add.
Qed.

(** A read that fits in a prefix of the buffer does not see what follows. *)
Lemma readUInt32LE_app_l (pre rest : buffer) (off : N) :
  (N.to_nat off + 4 <= length pre)%nat ->
  readUInt32LE (pre ++ rest) off = readUInt32LE pre off
  /\ is_Some (readUInt32LE pre off).
Proof.
  intros Hfit. unfold readUInt32LE.
  rewrite drop_app_le by lia.
  assert (Hlen : (4 <= length (drop (N.to_nat off) pre))%nat) by (rewrite length_drop; lia).
  destruct (drop (N.to_nat off) pre) as [|b0 [|b1 [|b2 [|b3 tl]]]]; simpl in Hlen; try lia.
  simpl. split; [done | eauto].
Qed.

Lemma readUInt32BE_app_l (pre rest : buffer) (off : N) :
  (N.to_nat off + 4 <= length pre)%nat ->
  readUInt32BE (pre ++ rest) off = readUInt32BE pre off
  /\ is_Some (readUInt32BE pre off).
Proof.
  intros Hfit. unfold readUInt32BE.
  rewrite drop_app_le by lia.
  assert (Hlen : (4 <= length (drop (N.to_nat off) pre))%nat) by (rewrite length_drop; lia).
  destruct (drop (N.to_nat off) pre) as [|b0 [|b1 [|b2 [|b3 tl]]]]; simpl in Hlen; try lia.
  simpl. split; [done | eauto].
Qed.

Lemma readUInt32LE_out_of_range (buf : buffer) (off : N) :
  (length buf < N.to_nat off + 4)%nat -> readUInt32LE buf off = None.
Proof.
  intros Hout. unfold readUInt32LE.
  assert (Hlen : (length (drop (N.to_nat off) buf) < 4)%nat) by (rewrite length_drop; lia).
  destruct (drop (N.to_nat off) buf) as [|b0 [|b1 [|b2 [|b3 tl]]]]; simpl in Hlen; try lia;
    done.
Qed.

Lemma length_copy_into (target : buffer) (pos : nat) (source : buffer) :
  (pos + length source <= length target)%nat ->
  length (copy_into target pos source) = length target.
Proof.
  intros Hfit. unfold copy_into.
  rewrite !length_app, !length_take, length_drop. lia.
Qed.

(** Copying a chunk that fits: the bytes before it stay, the chunk follows,
    then the bytes after it. *)
Lemma copy_into_fits (target : buffer) (pos : nat) (source : buffer) :
  (pos + length source <= length target)%nat ->
  copy_into target pos source
  = take pos target ++ source ++ drop (pos + length source) target.
Proof.
  intros Hfit. unfold copy_into. by rewrite (take_ge source) by lia.
Qed.

Lemma slice_empty (buf : buffer) (n : nat) : slice buf n n = [].
Proof. unfold slice. by rewrite Nat.sub_diag. Qed.

Lemma copy_into_nil (buf : buffer) : copy_into buf 0 [] = buf.
Proof. unfold copy_into. by rewrite take_nil. Qed.

(** ** The scanning loop *)

Section Scan.

Variable process : buffer -> completion.
Variable header : N.
Variable buf : buffer.
Variable inCursor : N.

(** The loop ends within as many iterations as bytes remain to scan, plus
    one. *)
Lemma scan_terminates fuel cursor messageEnd calls :
  (N.to_nat (inCursor - cursor) < fuel)%nat ->
  is_Some (scan process header buf inCursor fuel cursor messageEnd calls).
Proof.
  revert cursor messageEnd calls.
  induction fuel as [|fuel IH]; intros cursor messageEnd calls Hfuel; [lia|].
  simpl. destruct (cursor <? inCursor)%N eqn:Hlt; [|eauto].
  apply N.ltb_lt in Hlt.
  destruct (readUInt32LE buf cursor) as [word|]; [|eauto].
  destruct (word =? header)%N.
  - destruct (cursor + 16 <? inCursor)%N.
    + destruct (readUInt32LE buf (cursor + 16)) as [len|]; [|eauto].
      destruct (cursor + len + 24 <=? inCursor)%N.
      * destruct (process _); [|eauto]. apply IH. lia.
      * apply IH. lia.
    + apply IH. lia.
  - apply IH. lia.
Qed.

End Scan.

(** ** The handler of data events *)

(** X11.  The handler always comes to an end, whatever the buffer holds and
    whatever the length fields say: every turn of its loop moves the cursor
    forward. *)
Theorem socket_data_handler_terminates (process : buffer -> completion)
    (p : Peer) (data : buffer) :
  is_Some (_socketEventData_with process p data).
Proof.
  unfold _socketEventData_with.
  destruct (_ <? _)%N; [destruct (emit p _) as [p' [|e]]; eauto|].
  destruct (_ <? 20)%N; [eauto|].
  match goal with
  | |- context [scan ?pr ?h ?b ?ic ?f ?c ?m ?cs] =>
      destruct (scan_terminates pr h b ic f c m cs) as [[[calls messageEnd] res] ->]
  end; [lia|].
  destruct res; [destruct (0 <? messageEnd)%N|]; eauto.
Qed.

(** X12.  A chunk that does not fit in what is left of the buffer is dropped.
    With a listener for 'error' the event is emitted and the cursor is put
    one past the end of the buffer, after which every chunk, even an empty
    one, is dropped in the same way, until [connect] allocates the buffer
    anew; without a listener the emitter throws and the peer is left as it
    was. *)
Theorem overflow_is_sticky (process : buffer -> completion) (p : Peer)
    (data : buffer) :
  (length (_inBuffer p) < length data + N.to_nat (_inCursor p))%nat ->
  (existsb (String.eqb "error") (listeners p) = false ->
   _socketEventData_with process p data = Some (p, [], Threw UnhandledError))
  /\ (existsb (String.eqb "error") (listeners p) = true ->
      exists p',
        _socketEventData_with process p data = Some (p', [], Done)
        /\ _inBuffer p' = _inBuffer p
        /\ _inCursor p' = (N.of_nat (length (_inBuffer p)) + 1)%N
        /\ emitted p' = emitted p ++ [EvError "Peer exceeded max receiving buffer"]
        /\ (forall data',
              exists p'',
                _socketEventData_with process p' data' = Some (p'', [], Done)
                /\ _inBuffer p'' = _inBuffer p /\ _inCursor p'' = _inCursor p')
        /\ _inCursor (connect p') = 0%N
        /\ _inBuffer (connect p') = alloc (_bufferSize p)).
Proof.
  intros Hover.
  assert (Hlt : (N.of_nat (length (_inBuffer p)) <? N.of_nat (length data) + _inCursor p)%N
                = true) by (apply N.ltb_lt; lia).
  split; intros Hl.
  - unfold _socketEventData_with. rewrite Hlt. unfold emit. by rewrite Hl.
  - eexists. split.
    { unfold _socketEventData_with. rewrite Hlt. unfold emit. rewrite Hl. reflexivity. }
    simpl. repeat (split; [reflexivity|]). split; [|done].
    intros data'. eexists. split.
    { unfold _socketEventData_with, emit. cbn -[String.eqb N.ltb N.add N.of_nat].
      replace (_ <? _)%N with true by (symmetry; apply N.ltb_lt; lia).
      rewrite Hl. reflexivity. }
    by simpl.
Qed.

Lemma overflow_is_sticky_witness :
  (length (_inBuffer demo_peer) < length (alloc 65) + N.to_nat (_inCursor demo_peer))%nat
  /\ exists p',
       _socketEventData demo_hmac demo_peer (alloc 65) = Some (p', [], Done)
       /\ _inCursor p' = 65%N
       /\ exists p'',
            _socketEventData demo_hmac p' [] = Some (p'', [], Done)
            /\ _inBuffer p'' = _inBuffer demo_peer /\ _inCursor p'' = _inCursor p'.
Proof.
  assert (H : (length (_inBuffer demo_peer)
               < length (alloc 65) + N.to_nat (_inCursor demo_peer))%nat)
    by (vm_compute; lia).
  split; [exact H|].
  destruct (proj2 (overflow_is_sticky (_processMessage demo_hmac) demo_peer (alloc 65) H)
              eq_refl)
    as (p' & Hrun & _ & Hcur & _ & Hlater & _).
  exists p'. split; [exact Hrun|]. split; [exact Hcur|]. exact (Hlater []).
Defined.

Section ScanSteps.

Variable process : buffer -> completion.
Variable header : N.
Variable buf : buffer.
Variable inCursor : N.

Lemma scan_end fuel cursor messageEnd calls :
  (inCursor <= cursor)%N ->
  scan process header buf inCursor (S fuel) cursor messageEnd calls
  = Some (calls, messageEnd, Done).
Proof. intros Hle. simpl. by rewrite (proj2 (N.ltb_ge cursor inCursor)) by lia. Qed.

(** One turn of the loop on the header of a message that is there in full. *)
Lemma scan_step_complete fuel cursor len messageEnd calls :
  readUInt32LE buf cursor = Some header ->
  readUInt32LE buf (cursor + 16) = Some len ->
  (cursor + len + 24 <= inCursor)%N ->
  scan process header buf inCursor (S fuel) cursor messageEnd calls
  = match process (slice buf (N.to_nat cursor) (N.to_nat (cursor + len + 24))) with
    | Done =>
        scan process header buf inCursor fuel (cursor + (len + 24))%N
             (cursor + len + 24)%N
             (calls ++ [slice buf (N.to_nat cursor) (N.to_nat (cursor + len + 24))])
    | Threw e =>
        Some (calls ++ [slice buf (N.to_nat cursor) (N.to_nat (cursor + len + 24))],
              messageEnd, Threw e)
    end.
Proof.
  intros Hh Hl Hc. simpl.
  rewrite (proj2 (N.ltb_lt cursor inCursor)) by lia.
  rewrite Hh, N.eqb_refl.
  rewrite (proj2 (N.ltb_lt (cursor + 16) inCursor)) by lia.
  rewrite Hl.
  by rewrite (proj2 (N.leb_le (cursor + len + 24) inCursor)) by lia.
Qed.

(** On the header of a message that is not there in full yet, the loop
    ends without a call. *)
Lemma scan_step_incomplete fuel cursor len messageEnd calls :
  readUInt32LE buf cursor = Some header ->
  readUInt32LE buf (cursor + 16) = Some len ->
  (cursor + 16 < inCursor)%N ->
  (inCursor < cursor + len + 24)%N ->
  scan process header buf inCursor (S (S fuel)) cursor messageEnd calls
  = Some (calls, messageEnd, Done).
Proof.
  intros Hh Hl Hc Hi.
  change (scan process header buf inCursor (S (S fuel)) cursor messageEnd calls)
    with (if (cursor <? inCursor)%N then
            match readUInt32LE buf cursor with
            | None => Some (calls, messageEnd, Threw RangeError)
            | Some word =>
                if (word =? header)%N then
                  if (cursor + 16 <? inCursor)%N then
                    match readUInt32LE buf (cursor + 16) with
                    | None => Some (calls, messageEnd, Threw RangeError)
                    | Some messageLength =>
                        if (cursor + messageLength + 24 <=? inCursor)%N then
                          match process (slice buf (N.to_nat cursor)
                                           (N.to_nat (cursor + messageLength + 24))) with
                          | Done =>
                              scan process header buf inCursor (S fuel)
                                   (cursor + (messageLength + 24))%N
                                   (cursor + messageLength + 24)%N
                                   (calls ++ [slice buf (N.to_nat cursor)
                                                (N.to_nat (cursor + messageLength + 24))])
                          | Threw e =>
                              Some (calls ++ [slice buf (N.to_nat cursor)
                                                (N.to_nat (cursor + messageLength + 24))],
                                    messageEnd, Threw e)
                          end
                        else
                          scan process header buf inCursor (S fuel)
                               (cursor + (messageLength + 24))%N messageEnd calls
                    end
                  else scan process header buf inCursor (S fuel) inCursor messageEnd calls
                else scan process header buf inCursor (S fuel) (cursor + 1)%N messageEnd calls
            end
          else Some (calls, messageEnd, Done)).
  rewrite (proj2 (N.ltb_lt cursor inCursor)) by lia.
  rewrite Hh, N.eqb_refl.
  rewrite (proj2 (N.ltb_lt (cursor + 16) inCursor)) by lia.
  rewrite Hl.
  rewrite (proj2 (N.leb_gt (cursor + len + 24) inCursor)) by lia.
  apply scan_end. lia.
Qed.

End ScanSteps.

(** ** Messages in the layout of [frame] *)

Section Frames.

Variables (header : N) (command checksum payload : buffer).
Hypothesis Hheader : (header < 4294967296)%N.
Hypothesis Hcommand : length command = 12%nat.
Hypothesis Hchecksum : length checksum = 4%nat.
Hypothesis Hpayload : (N.of_nat (length payload) < 4294967296)%N.

Lemma frame_length :
  length (frame header command checksum payload) = (24 + length payload)%nat.
Proof. unfold frame. rewrite !length_app. simpl. lia. Qed.

Lemma frame_reads rest :
  readUInt32LE (frame header command checksum payload ++ rest) 0 = Some header
  /\ readUInt32LE (frame header command checksum payload ++ rest) 16
     = Some (N.of_nat (length payload)).
Proof.
  unfold frame. split.
  - rewrite <- !app_assoc. by apply readUInt32LE_bytes32LE.
  - replace (((bytes32LE header ++ command ++ bytes32LE (N.of_nat (length payload))
               ++ checksum ++ payload) ++ rest))
      with ((bytes32LE header ++ command)
            ++ (bytes32LE (N.of_nat (length payload)) ++ (checksum ++ payload ++ rest)))
      by (by rewrite <- !app_assoc).
    replace 16%N with (N.of_nat (length (bytes32LE header ++ command)) + 0)%N
      by (rewrite length_app; simpl; lia).
    rewrite readUInt32LE_app_r. by apply readUInt32LE_bytes32LE.
Qed.

(** The same reads on a buffer that holds only the first bytes of the
    message, twenty or more, followed by anything. *)
Lemma frame_prefix_reads d1 d2 rest :
  d1 ++ d2 = frame header command checksum payload ->
  (20 <= length d1)%nat ->
  readUInt32LE (d1 ++ rest) 0 = Some header
  /\ readUInt32LE (d1 ++ rest) 16 = Some (N.of_nat (length payload)).
Proof.
  intros Hsplit Hlen.
  destruct (frame_reads []) as [H0 H16]. rewrite app_nil_r, <- Hsplit in H0, H16.
  destruct (readUInt32LE_app_l d1 d2 0 ltac:(lia)) as [E0 _].
  destruct (readUInt32LE_app_l d1 d2 16 ltac:(lia)) as [E16 _].
  destruct (readUInt32LE_app_l d1 rest 0 ltac:(lia)) as [F0 _].
  destruct (readUInt32LE_app_l d1 rest 16 ltac:(lia)) as [F16 _].
  split; congruence.
Qed.

End Frames.

(** X13.  A message in the layout of [frame] that reaches a peer with an
    empty buffer in two chunks, cut anywhere (the first chunk may be empty,
    so this covers a message that comes whole): the first chunk is kept and
    nothing is handed on; with the second chunk exactly the message is
    handed to [_processMessage], once; if that call returns, the message
    is taken out of the buffer, and if it throws, the handler throws with
    the message still in the buffer. *)
Theorem frame_is_reassembled (process : buffer -> completion) (p : Peer)
    (command checksum payload d1 d2 : buffer) :
  let f := frame (_header p) command checksum payload in
  (_header p < 4294967296)%N ->
  length command = 12%nat -> length checksum = 4%nat ->
  (N.of_nat (length payload) < 4294967296)%N ->
  _inCursor p = 0%N ->
  (length f <= length (_inBuffer p))%nat ->
  d1 ++ d2 = f -> d2 <> [] ->
  let p1 := set_buffer p (d1 ++ drop (length d1) (_inBuffer p)) (N.of_nat (length d1)) in
  let buf2 := f ++ drop (length f) (_inBuffer p) in
  _socketEventData_with process p d1 = Some (p1, [], Done)
  /\ _socketEventData_with process p1 d2
     = Some (match process f with
             | Done => set_buffer p buf2 0
             | Threw _ => set_buffer p buf2 (N.of_nat (length f))
             end, [f], process f).
Proof.
  intros f Hheader Hcommand Hchecksum Hpayload Hcursor Hfits Hsplit Hd2 p1 buf2.
  assert (Hflen : length f = (24 + length payload)%nat)
    by (apply frame_length; done).
  assert (Hlen : (length d1 + length d2 = length f)%nat)
    by (by rewrite <- Hsplit, length_app).
  assert (Hd2len : (0 < length d2)%nat) by (destruct d2; [done | simpl; lia]).
  split.
  - unfold _socketEventData_with. rewrite Hcursor.
    rewrite (proj2 (N.ltb_ge _ _)) by lia.
    change (N.to_nat 0) with O.
    rewrite copy_into_fits by (simpl; lia). simpl take. simpl app.
    replace (0 + N.of_nat (length d1))%N with (N.of_nat (length d1)) by lia.
    fold p1.
    destruct (N.of_nat (length d1) <? 20)%N eqn:Hshort; [done|].
    apply N.ltb_ge in Hshort.
    destruct (frame_prefix_reads (_header p) command checksum payload Hheader Hcommand
                Hchecksum Hpayload d1 d2 (drop (length d1) (_inBuffer p)) Hsplit ltac:(lia))
      as [H0 H16].
    replace (S (N.to_nat (N.of_nat (length d1)))) with (S (S (length d1 - 1))) by lia.
    rewrite (scan_step_incomplete process (_header p) _ _ _ 0 (N.of_nat (length payload)));
      [done|done|done|lia|lia].
  - unfold _socketEventData_with. unfold p1 at 1 2 3 4. simpl _inBuffer. simpl _inCursor.
    simpl _header.
    rewrite (proj2 (N.ltb_ge _ _))
      by (rewrite length_app, length_drop; lia).
    rewrite Nat2N.id.
    rewrite copy_into_fits by (rewrite length_app, length_drop; lia).
    rewrite take_app_length, drop_app_ge by lia.
    rewrite drop_drop.
    replace (length d1 + (length d1 + length d2 - length d1))%nat with (length f) by lia.
    rewrite (app_assoc d1 d2), Hsplit. fold buf2.
    replace (N.of_nat (length d1) + N.of_nat (length d2))%N with (N.of_nat (length f)) by lia.
    rewrite (proj2 (N.ltb_ge _ 20)) by lia.
    destruct (frame_reads (_header p) command checksum payload Hheader Hcommand Hchecksum
                Hpayload (drop (length f) (_inBuffer p))) as [H0 H16].
    fold f in H0, H16. fold buf2 in H0, H16.
    replace (S (N.to_nat (N.of_nat (length f)))) with (S (S (length f - 1))) by lia.
    rewrite (scan_step_complete process (_header p) buf2 _ _ 0 (N.of_nat (length payload)))
      by (try done; lia).
    replace (N.to_nat (0 + N.of_nat (length payload) + 24)) with (length f) by lia.
    assert (Hmsg : slice buf2 (N.to_nat 0) (length f) = f).
    { unfold slice. change (N.to_nat 0) with O. rewrite drop_0, Nat.sub_0_r.
      apply take_app_length. }
    rewrite Hmsg. simpl app.
    destruct (process f) as [|e]; [|done].
    rewrite scan_end by lia.
    rewrite (proj2 (N.ltb_lt 0 _)) by lia.
    replace (N.to_nat (0 + N.of_nat (length payload) + 24)) with (length f) by lia.
    rewrite Nat2N.id, slice_empty, copy_into_nil.
    by replace (N.of_nat (length f) - (0 + N.of_nat (length payload) + 24))%N
      with 0%N by lia.
Qed.

Lemma frame_is_reassembled_witness :
  _socketEventData demo_hmac demo_peer (take 10 demo_ping)
  = Some (set_buffer demo_peer (take 10 demo_ping ++ drop 10 (alloc 64)) 10, [], Done)
  /\ _socketEventData demo_hmac
       (set_buffer demo_peer (take 10 demo_ping ++ drop 10 (alloc 64)) 10)
       (drop 10 demo_ping)
     = Some (demo_stuck, [demo_ping], Threw TypeError).
Proof.
  pose proof (frame_is_reassembled (_processMessage demo_hmac) demo_peer
                demo_command (replicate 4 Byte.x00) [Byte.x01; Byte.x02]
                (take 10 demo_ping) (drop 10 demo_ping)
                eq_refl eq_refl eq_refl eq_refl eq_refl
                ltac:(vm_compute; lia) eq_refl ltac:(vm_compute; discriminate)) as H.
  vm_compute in H. vm_compute. exact H.
Defined.

(** ** The class's own [_processMessage] *)

(** On any message of twenty-four bytes or more, the method throws a
    TypeError: it never returns, and never emits. *)
Lemma processMessage_throws (hmac : string -> buffer -> string) (message : buffer) :
  (24 <= length message)%nat ->
  _processMessage hmac message = Threw TypeError.
Proof.
  intros Hlen. unfold _processMessage.
  destruct (readUInt32LE_app_l message [] 16 ltac:(lia)) as [_ [len Hl]].
  destruct (readUInt32BE_app_l message [] 20 ltac:(lia)) as [_ [chk Hc]].
  rewrite Hl, Hc. by destruct (0 <? len)%N.
Qed.

Lemma reads_of_prefix (buf : buffer) (n : nat) (rest : buffer) (off : N) :
  (N.to_nat off + 4 <= n)%nat -> (n <= length buf)%nat ->
  readUInt32LE (take n buf ++ rest) off = readUInt32LE buf off.
Proof.
  intros Hoff Hn.
  destruct (readUInt32LE_app_l (take n buf) rest off) as [-> _];
    [rewrite length_take; lia|].
  destruct (readUInt32LE_app_l (take n buf) (drop n buf) off) as [<- _];
    [rewrite length_take; lia|].
  by rewrite take_drop.
Qed.

(** X14.  With the class's own [_processMessage], a peer whose buffer starts
    with a message that is there in full cannot get past it: on every chunk
    that still fits, the handler hands that message on and ends with the
    TypeError of [_processMessage]; the chunk has been stored, nothing has
    been removed, and the buffer starts with the same message as before, so
    the next chunk fares the same. *)
Theorem complete_message_blocks_the_peer (hmac : string -> buffer -> string)
    (p : Peer) (data : buffer) (len : N) :
  readUInt32LE (_inBuffer p) 0 = Some (_header p) ->
  readUInt32LE (_inBuffer p) 16 = Some len ->
  (len + 24 <= _inCursor p)%N ->
  (length data + N.to_nat (_inCursor p) <= length (_inBuffer p))%nat ->
  let p' := set_buffer p (copy_into (_inBuffer p) (N.to_nat (_inCursor p)) data)
                       (_inCursor p + N.of_nat (length data)) in
  _socketEventData hmac p data
  = Some (p', [take (N.to_nat (len + 24)) (_inBuffer p)], Threw TypeError)
  /\ readUInt32LE (_inBuffer p') 0 = Some (_header p')
  /\ readUInt32LE (_inBuffer p') 16 = Some len
  /\ (len + 24 <= _inCursor p')%N
  /\ length (_inBuffer p') = length (_inBuffer p).
Proof.
  intros H0 H16 Hfull Hfits p'.
  assert (Hbuf : _inBuffer p'
                 = take (N.to_nat (_inCursor p)) (_inBuffer p)
                   ++ (data ++ drop (N.to_nat (_inCursor p) + length data) (_inBuffer p))).
  { unfold p'. simpl. apply copy_into_fits. lia. }
  assert (H0' : readUInt32LE (_inBuffer p') 0 = Some (_header p)).
  { rewrite Hbuf, reads_of_prefix by lia. done. }
  assert (H16' : readUInt32LE (_inBuffer p') 16 = Some len).
  { rewrite Hbuf, reads_of_prefix by lia. done. }
  assert (Hlen' : length (_inBuffer p') = length (_inBuffer p)).
  { unfold p'. simpl. apply length_copy_into. lia. }
  split; [|repeat split; try done; unfold p'; simpl; lia].
  unfold _socketEventData, _socketEventData_with.
  rewrite (proj2 (N.ltb_ge _ _)) by lia.
  change (set_buffer p (copy_into (_inBuffer p) (N.to_nat (_inCursor p)) data)
            (_inCursor p + N.of_nat (length data))) with p'.
  change (copy_into (_inBuffer p) (N.to_nat (_inCursor p)) data) with (_inBuffer p').
  rewrite (proj2 (N.ltb_ge _ 20)) by lia.
  rewrite (scan_step_complete _ (_header p) (_inBuffer p') _ _ 0 len) by (try done; lia).
  assert (Hmsg : slice (_inBuffer p') (N.to_nat 0) (N.to_nat (0 + len + 24))
                 = take (N.to_nat (len + 24)) (_inBuffer p)).
  { unfold slice. change (N.to_nat 0) with O. rewrite drop_0, Nat.sub_0_r.
    replace (0 + len + 24)%N with (len + 24)%N by lia.
    rewrite Hbuf, take_app_le by (rewrite length_take; lia).
    rewrite take_take. f_equal. lia. }
  rewrite Hmsg.
  rewrite processMessage_throws by (rewrite length_take; lia).
  done.
Qed.

Lemma complete_message_blocks_the_peer_witness :
  _socketEventData demo_hmac demo_stuck [Byte.x05]
  = Some (set_buffer demo_stuck (copy_into (_inBuffer demo_stuck) 26 [Byte.x05]) 27,
          [demo_ping], Threw TypeError).
Proof.
  pose proof (proj1 (complete_message_blocks_the_peer demo_hmac demo_stuck [Byte.x05] 2
                       eq_refl eq_refl ltac:(vm_compute; discriminate)
                       ltac:(vm_compute; lia))) as H.
  vm_compute in H. vm_compute. exact H.
Defined.

(** ** Data without a header *)

Lemma readUInt32LE_in_range (buf : buffer) (off : N) :
  (N.to_nat off + 4 <= length buf)%nat -> is_Some (readUInt32LE buf off).
Proof.
  intros Hin. destruct (readUInt32LE_app_l buf [] off Hin) as [_ Hs]. done.
Qed.

Section ScanHeaderless.

Variable process : buffer -> completion.
Variable header : N.
Variable buf : buffer.
Variable inCursor : N.
Hypothesis Hnone : forall k, (k < inCursor)%N -> readUInt32LE buf k <> Some header.

Lemma scan_headerless_done fuel cursor messageEnd calls :
  (N.to_nat inCursor + 3 <= length buf)%nat ->
  (N.to_nat (inCursor - cursor) < fuel)%nat ->
  scan process header buf inCursor fuel cursor messageEnd calls
  = Some (calls, messageEnd, Done).
Proof.
  intros Hin. revert cursor.
  induction fuel as [|fuel IH]; intros cursor Hfuel; [lia|].
  simpl. destruct (cursor <? inCursor)%N eqn:Hlt; [|done].
  apply N.ltb_lt in Hlt.
  destruct (readUInt32LE_in_range buf cursor ltac:(lia)) as [w Hw]. rewrite Hw.
  destruct (w =? header)%N eqn:E.
  - apply N.eqb_eq in E. subst w. by destruct (Hnone cursor Hlt).
  - apply IH. lia.
Qed.

Lemma scan_headerless_out_of_range fuel cursor messageEnd calls :
  (length buf < N.to_nat inCursor + 3)%nat ->
  (N.to_nat cursor + 3 <= length buf)%nat ->
  (N.to_nat (inCursor - cursor) < fuel)%nat ->
  scan process header buf inCursor fuel cursor messageEnd calls
  = Some (calls, messageEnd, Threw RangeError).
Proof.
  intros Hbrim. revert cursor.
  induction fuel as [|fuel IH]; intros cursor Hcur Hfuel; [lia|].
  simpl. rewrite (proj2 (N.ltb_lt cursor inCursor)) by lia.
  destruct (decide (N.to_nat cursor + 4 <= length buf)%nat) as [Hin|Hout].
  - destruct (readUInt32LE_in_range buf cursor Hin) as [w Hw]. rewrite Hw.
    destruct (w =? header)%N eqn:E.
    + apply N.eqb_eq in E. subst w. destruct (Hnone cursor); [lia | done].
    + apply IH; lia.
  - by rewrite readUInt32LE_out_of_range by lia.
Qed.

End ScanHeaderless.

Lemma headerless_by_check (buf : buffer) (header : N) (n : nat) :
  forallb (fun k => match readUInt32LE buf (N.of_nat k) with
                    | Some word => negb (word =? header)%N
                    | None => true
                    end) (seq 0 n) = true ->
  forall k, (k < N.of_nat n)%N -> readUInt32LE buf k <> Some header.
Proof.
  intros Hall k Hk Hread.
  rewrite forallb_forall in Hall.
  specialize (Hall (N.to_nat k)).
  rewrite N2Nat.id, Hread, N.eqb_refl in Hall.
  discriminate Hall. apply in_seq. lia.
Qed.

(** X15.  Data in which the header does not occur is only stored: nothing
    is handed on and nothing is ever removed.  This goes well as long as
    three bytes of the buffer stay free; a chunk that fits but leaves fewer
    makes the loop read past the end of the buffer, and the handler ends
    with a RangeError instead of the overflow event. *)
Theorem headerless_data_piles_up (process : buffer -> completion) (p : Peer)
    (data : buffer) :
  let buf' := copy_into (_inBuffer p) (N.to_nat (_inCursor p)) data in
  let cursor' := (_inCursor p + N.of_nat (length data))%N in
  (length data + N.to_nat (_inCursor p) <= length (_inBuffer p))%nat ->
  (forall k, (k < cursor')%N -> readUInt32LE buf' k <> Some (_header p)) ->
  ((N.to_nat cursor' + 3 <= length (_inBuffer p))%nat ->
   _socketEventData_with process p data = Some (set_buffer p buf' cursor', [], Done))
  /\ ((20 <= cursor')%N -> (length (_inBuffer p) < N.to_nat cursor' + 3)%nat ->
      _socketEventData_with process p data
      = Some (set_buffer p buf' cursor', [], Threw RangeError)).
Proof.
  intros buf' cursor' Hfits Hnone.
  assert (Hlen : length buf' = length (_inBuffer p))
    by (apply length_copy_into; lia).
  split.
  - intros Hroom. unfold _socketEventData_with.
    rewrite (proj2 (N.ltb_ge _ _)) by lia.
    fold buf'. fold cursor'.
    destruct (cursor' <? 20)%N; [done|].
    rewrite (scan_headerless_done process (_header p) buf' cursor' Hnone) by lia.
    done.
  - intros Hbig Hbrim. unfold _socketEventData_with.
    rewrite (proj2 (N.ltb_ge _ _)) by lia.
    fold buf'. fold cursor'.
    rewrite (proj2 (N.ltb_ge _ 20)) by lia.
    rewrite (scan_headerless_out_of_range process (_header p) buf' cursor' Hnone)
      by (simpl; lia).
    done.
Qed.

Lemma headerless_data_piles_up_witness :
  _socketEventData demo_hmac demo_peer (replicate 40 Byte.x01)
  = Some (set_buffer demo_peer (replicate 40 Byte.x01 ++ alloc 24) 40, [], Done)
  /\ _socketEventData demo_hmac demo_peer (replicate 62 Byte.x01)
     = Some (set_buffer demo_peer (replicate 62 Byte.x01 ++ alloc 2) 62, [],
             Threw RangeError).
Proof.
  split.
  - assert (Hnone : forall k,
               (k < _inCursor demo_peer + N.of_nat (length (replicate 40 Byte.x01)))%N ->
               readUInt32LE (copy_into (_inBuffer demo_peer)
                               (N.to_nat (_inCursor demo_peer)) (replicate 40 Byte.x01)) k
               <> Some (_header demo_peer)).
    { apply (headerless_by_check _ _ 40). vm_compute. reflexivity. }
    pose proof (proj1 (headerless_data_piles_up (_processMessage demo_hmac) demo_peer
                         (replicate 40 Byte.x01) ltac:(vm_compute; lia) Hnone)
                  ltac:(vm_compute; lia)) as H.
    vm_compute in H. vm_compute. exact H.
  - assert (Hnone : forall k,
               (k < _inCursor demo_peer + N.of_nat (length (replicate 62 Byte.x01)))%N ->
               readUInt32LE (copy_into (_inBuffer demo_peer)
                               (N.to_nat (_inCursor demo_peer)) (replicate 62 Byte.x01)) k
               <> Some (_header demo_peer)).
    { apply (headerless_by_check _ _ 62). vm_compute. reflexivity. }
    pose proof (proj2 (headerless_data_piles_up (_processMessage demo_hmac) demo_peer
                         (replicate 62 Byte.x01) ltac:(vm_compute; lia) Hnone)
                  ltac:(vm_compute; discriminate) ltac:(vm_compute; lia)) as H.
    vm_compute in H. vm_compute. exact H.
Defined.


(** ** Several messages in one chunk *)

Section ScanFrames.

Variable process : buffer -> completion.
Variable header : N.
Hypothesis Hheader : (header < 4294967296)%N.
Variable buf : buffer.
Variable inCursor : N.

(** Fewer than twenty-four bytes left to scan cannot hold a message: the
    loop ends without a call, provided its reads stay inside the buffer. *)
Lemma scan_short_tail fuel cursor messageEnd calls :
  (inCursor - cursor < 24)%N ->
  (N.to_nat inCursor + 3 <= length buf)%nat ->
  (N.to_nat (inCursor - cursor) < fuel)%nat ->
  scan process header buf inCursor fuel cursor messageEnd calls
  = Some (calls, messageEnd, Done).
Proof.
  intros Hshort Hin. revert cursor Hshort.
  induction fuel as [|fuel IH]; intros cursor Hshort Hfuel; [lia|].
  simpl. destruct (cursor <? inCursor)%N eqn:Hlt; [|done].
  apply N.ltb_lt in Hlt.
  destruct (readUInt32LE_in_range buf cursor ltac:(lia)) as [w ->].
  destruct (w =? header)%N.
  - destruct (cursor + 16 <? inCursor)%N eqn:H16.
    + apply N.ltb_lt in H16.
      destruct (readUInt32LE_in_range buf (cursor + 16) ltac:(lia)) as [len ->].
      rewrite (proj2 (N.leb_gt (cursor + len + 24) inCursor)) by lia.
      apply IH; lia.
    + apply IH; lia.
  - apply IH; lia.
Qed.

(** The loop on a run of whole messages: they are handed on in order up to
    the first on which [process] throws; if there is none, the cursor and
    [messageEnd] come to stand behind the last message. *)
Lemma scan_frames fs :
  Forall (is_frame header) fs ->
  forall pre rest fuel messageEnd calls,
    buf = pre ++ concat fs ++ rest ->
    (N.of_nat (length pre + length (concat fs)) <= inCursor)%N ->
    match snd (handed_on process fs) with
    | Done =>
        scan process header buf inCursor (length fs + fuel) (N.of_nat (length pre))
             messageEnd calls
        = scan process header buf inCursor fuel
               (N.of_nat (length pre + length (concat fs)))
               (match fs with
                | [] => messageEnd
                | _ => N.of_nat (length pre + length (concat fs))
                end)
               (calls ++ fs)
        /\ fst (handed_on process fs) = fs
    | Threw e =>
        exists messageEnd',
          scan process header buf inCursor (length fs + fuel) (N.of_nat (length pre))
               messageEnd calls
          = Some (calls ++ fst (handed_on process fs), messageEnd', Threw e)
    end.
Proof.
  induction fs as [|f fs IH]; intros Hwf pre rest fuel messageEnd calls Hbuf Hcur.
  - simpl. by rewrite Nat.add_0_r, app_nil_r.
  - apply Forall_cons in Hwf as [(command & checksum & payload & Hf & Hc & Hk & Hp) Hwf].
    assert (Hflen : length f = (24 + length payload)%nat)
      by (rewrite Hf; by apply frame_length).
    simpl concat in *. rewrite length_app in *.
    assert (Hreads : readUInt32LE buf (N.of_nat (length pre)) = Some header
                     /\ readUInt32LE buf (N.of_nat (length pre) + 16)
                        = Some (N.of_nat (length payload))).
    { rewrite Hbuf.
      replace (N.of_nat (length pre)) with (N.of_nat (length pre) + 0)%N at 1 by lia.
      rewrite !readUInt32LE_app_r, <- app_assoc, Hf.
      by apply frame_reads. }
    destruct Hreads as [H0 H16].
    assert (Hmsg : slice buf (N.to_nat (N.of_nat (length pre)))
                     (N.to_nat (N.of_nat (length pre) + N.of_nat (length payload) + 24))
                   = f).
    { unfold slice. rewrite Hbuf, Nat2N.id, drop_app_length, <- app_assoc.
      replace (N.to_nat (N.of_nat (length pre) + N.of_nat (length payload) + 24)
               - length pre)%nat with (length f) by lia.
      apply take_app_length. }
    change (length (f :: fs) + fuel)%nat with (S (length fs + fuel)).
    rewrite (scan_step_complete process header buf inCursor _ _ (N.of_nat (length payload)))
      by (try done; lia).
    rewrite Hmsg. simpl handed_on.
    destruct (process f) as [|e]; [|simpl; by eexists].
    replace (N.of_nat (length pre) + (N.of_nat (length payload) + 24))%N
      with (N.of_nat (length pre + length f)) by lia.
    specialize (IH Hwf (pre ++ f) rest fuel
                  (N.of_nat (length pre) + N.of_nat (length payload) + 24)%N
                  (calls ++ [f])).
    rewrite length_app, <- !app_assoc in IH.
    specialize (IH ltac:(by rewrite Hbuf, <- !app_assoc) ltac:(lia)).
    simpl fst. simpl snd.
    destruct (snd (handed_on process fs)) as [|e].
    + destruct IH as [IH ->]. split; [|done].
      rewrite IH. simpl app.
      replace (length pre + length f + length (concat fs))%nat
        with (length pre + (length f + length (concat fs)))%nat by lia.
      f_equal. destruct fs; [|done].
      simpl. f_equal. lia.
    + destruct IH as [messageEnd' IH]. exists messageEnd'.
      by rewrite IH.
Qed.

End ScanFrames.

Lemma frames_length (header : N) (fs : list buffer) :
  Forall (is_frame header) fs -> (24 * length fs <= length (concat fs))%nat.
Proof.
  induction 1 as [|f fs (command & checksum & payload & -> & Hc & Hk & _) _ IH];
    [simpl; lia|].
  change (concat (frame header command checksum payload :: fs))
    with (frame header command checksum payload ++ concat fs).
  unfold frame. rewrite !length_app. unfold bytes32LE. simpl length. lia.
Qed.

(** X16.  A chunk made of whole messages followed by fewer than twenty-four
    further bytes, reaching a peer with an empty buffer that has room for
    it and three bytes more.  The messages are handed to [_processMessage]
    one by one in their order, up to the first on which it throws.  If it
    throws, the handler throws with the whole chunk stored and nothing
    removed; if it returns on all of them, they are removed from the buffer
    and the bytes that followed them are moved to its start.  With the
    class's own [_processMessage] the first message is the only one handed
    on, and the handler ends with its TypeError. *)
Theorem messages_are_handed_on_until_one_throws (process : buffer -> completion)
    (p : Peer) (fs : list buffer) (tail : buffer) :
  let data := concat fs ++ tail in
  let stored := data ++ drop (length data) (_inBuffer p) in
  (_header p < 4294967296)%N ->
  _inCursor p = 0%N ->
  fs <> [] -> Forall (is_frame (_header p)) fs ->
  (length tail < 24)%nat ->
  (length data + 3 <= length (_inBuffer p))%nat ->
  _socketEventData_with process p data
  = Some (match snd (handed_on process fs) with
          | Done => set_buffer p (tail ++ drop (length tail) stored)
                               (N.of_nat (length tail))
          | Threw _ => set_buffer p stored (N.of_nat (length data))
          end,
          fst (handed_on process fs), snd (handed_on process fs))
  /\ forall hmac,
       _socketEventData hmac p data
       = Some (set_buffer p stored (N.of_nat (length data)), take 1 fs, Threw TypeError).
Proof.
  intros data stored Hheader Hcursor Hne Hwf Htail Hroom.
  assert (Hgen : forall process,
    _socketEventData_with process p data
    = Some (match snd (handed_on process fs) with
            | Done => set_buffer p (tail ++ drop (length tail) stored)
                                 (N.of_nat (length tail))
            | Threw _ => set_buffer p stored (N.of_nat (length data))
            end,
            fst (handed_on process fs), snd (handed_on process fs))).
  { clear process. intros process.
    pose proof (frames_length _ _ Hwf) as Hbig.
    assert (Hfs : (0 < length fs)%nat) by (destruct fs; [done | simpl; lia]).
    assert (Hdata : length data = (length (concat fs) + length tail)%nat)
      by (unfold data; by rewrite length_app).
    unfold _socketEventData_with. rewrite Hcursor.
    rewrite (proj2 (N.ltb_ge _ _)) by lia.
    change (N.to_nat 0) with O.
    rewrite copy_into_fits by (simpl; lia). simpl take. simpl app.
    rewrite ?Nat.add_0_l.
    replace (0 + N.of_nat (length data))%N with (N.of_nat (length data)) by lia.
    fold stored.
    rewrite (proj2 (N.ltb_ge _ 20)) by lia.
    replace (S (N.to_nat (N.of_nat (length data))))
      with (length fs + S (length data - length fs))%nat by lia.
    pose proof (scan_frames process (_header p) Hheader stored (N.of_nat (length data))
                  fs Hwf [] (tail ++ drop (length data) (_inBuffer p))
                  (S (length data - length fs)) 0%N []) as Hscan.
    specialize (Hscan ltac:(unfold stored, data; by rewrite <- app_assoc)
                      ltac:(simpl length; lia)).
    change (length (@nil Byte.byte)) with O in Hscan.
    change (N.of_nat 0) with 0%N in Hscan.
    rewrite ?Nat.add_0_l in Hscan. simpl app in Hscan.
    destruct (snd (handed_on process fs)) as [|e].
    - destruct Hscan as [-> ->].
      rewrite scan_short_tail
        by (try lia; unfold stored; rewrite length_app, length_drop; lia).
      destruct fs as [|f0 fs']; [done|].
      rewrite (proj2 (N.ltb_lt 0 _)) by (simpl in *; lia).
      assert (Hslice : slice stored
                         (N.to_nat (N.of_nat (length (concat (f0 :: fs')))))
                         (N.to_nat (N.of_nat (length data))) = tail).
      { unfold slice. rewrite !Nat2N.id.
        change stored
          with ((concat (f0 :: fs') ++ tail) ++ drop (length data) (_inBuffer p)).
        rewrite <- app_assoc, drop_app_length.
        replace (length data - length (concat (f0 :: fs')))%nat
          with (length tail) by lia.
        apply take_app_length. }
      rewrite Hslice.
      rewrite copy_into_fits by (unfold stored; rewrite length_app, length_drop; lia).
      replace (N.of_nat (length data) - N.of_nat (length (concat (f0 :: fs'))))%N
        with (N.of_nat (length tail)) by lia.
      done.
    - destruct Hscan as [messageEnd' ->]. done. }
  split; [apply Hgen|].
  intros hmac. unfold _socketEventData. rewrite Hgen.
  destruct fs as [|f0 fs']; [done|].
  apply Forall_cons in Hwf as [(command & checksum & payload & Hf & Hc & Hk & Hp) _].
  simpl handed_on.
  rewrite processMessage_throws; [done|].
  rewrite Hf. unfold frame. rewrite !length_app. unfold bytes32LE. simpl length. lia.
Qed.

Lemma demo_ping_is_frame : is_frame 2726085026 demo_ping.
Proof.
  exists demo_command, (replicate 4 Byte.x00), [Byte.x01; Byte.x02].
  split; [reflexivity|]. split; [reflexivity|]. split; reflexivity.
Qed.

Lemma messages_are_handed_on_until_one_throws_witness :
  _socketEventData demo_hmac demo_peer (demo_ping ++ demo_ping ++ [Byte.x07])
  = Some (set_buffer demo_peer (demo_ping ++ demo_ping ++ [Byte.x07] ++ alloc 11) 53,
          [demo_ping], Threw TypeError).
Proof.
  pose proof (proj2 (messages_are_handed_on_until_one_throws
                       (_processMessage demo_hmac) demo_peer
                       [demo_ping; demo_ping] [Byte.x07]
                       eq_refl eq_refl ltac:(discriminate)
                       (Forall_cons_2 _ _ _ demo_ping_is_frame
                          (Forall_cons_2 _ _ _ demo_ping_is_frame (Forall_nil_2 _)))
                       ltac:(vm_compute; lia) ltac:(vm_compute; lia)) demo_hmac) as H.
  vm_compute in H. vm_compute. exact H.
Defined.
